(** * eth-approvals: approval reconstruction, batched enrichment and risk scoring

    A shallow embedding of [index.js].  Asynchronous functions are modelled by
    their outcome: a value, an exception, or a promise that stays pending.
    JavaScript objects used as dictionaries are finite maps keyed by strings;
    JavaScript numbers are IEEE-754 binary64 values. *)

From Stdlib Require Import ZArith NArith String Ascii List Bool Lia.
From Stdlib Require Import Floats.SpecFloat.
From Stdlib Require Import DecimalString DecimalN.
From stdpp Require Import base option list sorting gmap strings.

Open Scope string_scope.
Open Scope Z_scope.
Open Scope list_scope.

(** ** Outcomes of (possibly asynchronous) computations *)

Inductive error : Type :=
| ReferenceError (name : string)
| TypeError (msg : string)
| Error (msg : string).

(** [Returned a]: the function returned (the promise resolved with) [a];
    [Thrown e]: it threw (the promise rejected);
    [Pending]: the awaited promise is never settled. *)
Inductive outcome (A : Type) : Type :=
| Returned (a : A)
| Thrown (e : error)
| Pending.
Arguments Returned {A} a.
Arguments Thrown {A} e.
Arguments Pending {A}.

#[global] Instance error_eq_dec : EqDecision error.
Proof. solve_decision. Defined.
#[global] Instance outcome_eq_dec {A} `{EqDecision A} : EqDecision (outcome A).
Proof. solve_decision. Defined.

#[global] Instance outcome_ret : MRet outcome := fun _ a => Returned a.
#[global] Instance outcome_bind : MBind outcome := fun _ _ f m =>
  match m with
  | Returned a => f a
  | Thrown e => Thrown e
  | Pending => Pending
  end.
#[global] Instance outcome_fmap : FMap outcome := fun _ _ f m =>
  match m with
  | Returned a => Returned (f a)
  | Thrown e => Thrown e
  | Pending => Pending
  end.

(** [Array.prototype.forEach] over a body that updates an accumulator and may
    throw. *)
Fixpoint forEach {A S : Type} (body : A -> S -> outcome S) (l : list A) (s : S)
  : outcome S :=
  match l with
  | [] => Returned s
  | x :: l' => s' ← body x s; forEach body l' s'
  end.

(** ** Strings *)

Definition toLowerCaseChar (c : ascii) : ascii :=
  let n := nat_of_ascii c in
  if ((65 <=? n) && (n <=? 90))%nat then ascii_of_nat (n + 32) else c.

Fixpoint toLowerCase (s : string) : string :=
  match s with
  | EmptyString => EmptyString
  | String c s' => String (toLowerCaseChar c) (toLowerCase s')
  end.

(** [s.slice(-n)]: the last [n] characters, the whole string when shorter. *)
Definition slice_last (n : nat) (s : string) : string :=
  substring (String.length s - n) n s.

(** [s.split(sep)] for a one-character separator; never empty. *)
Fixpoint split (sep : ascii) (s : string) : list string :=
  match s with
  | EmptyString => [EmptyString]
  | String c s' =>
      if Ascii.eqb c sep then EmptyString :: split sep s'
      else match split sep s' with
           | h :: t => String c h :: t
           | [] => [String c EmptyString]
           end
  end.

(** Array destructuring [const [x0, x1, ...] = parts]: a missing position is
    [undefined], which every consumer in this program (strict comparison with
    an address, a regular-expression test, a property name) treats like the
    text "undefined". *)
Definition js_nth (i : nat) (parts : list string) : string :=
  nth i parts "undefined".

Fixpoint zeros (n : nat) : string :=
  match n with
  | O => EmptyString
  | S n' => String "0" (zeros n')
  end.

(** [web3.utils.padLeft(string, chars)] with the default sign "0": the "0x"
    prefix is kept and the digits are left-padded to [chars] characters. *)
Definition padLeft (s : string) (chars : nat) : string :=
  let hasPrefix := String.prefix "0x" (toLowerCase (substring 0 2 s)) in
  let body := if hasPrefix then substring 2 (String.length s - 2) s else s in
  (if hasPrefix then "0x" else "") +:+ zeros (chars - String.length body) +:+ body.

(** ** Big numbers (bn.js) *)

Definition hexDigit (c : ascii) : option N :=
  let n := N_of_ascii c in
  if ((48 <=? n) && (n <=? 57))%N then Some (n - 48)%N
  else if ((97 <=? n) && (n <=? 102))%N then Some (n - 87)%N
  else if ((65 <=? n) && (n <=? 70))%N then Some (n - 55)%N
  else None.

Fixpoint hexDigits (acc : N) (s : string) : option N :=
  match s with
  | EmptyString => Some acc
  | String c s' =>
      match hexDigit c with
      | Some d => hexDigits (16 * acc + d)%N s'
      | None => None
      end
  end.

(** [web3.utils.toBN] on the text of a log's data word, which the chain
    client delivers as "0x" followed by hexadecimal digits ("0x" alone reads
    as 0); other text is rejected here. *)
Definition toBN (data : string) : outcome N :=
  if String.prefix "0x" data then
    match hexDigits 0%N (substring 2 (String.length data - 2) data) with
    | Some n => Returned n
    | None => Thrown (Error "not a number")
    end
  else Thrown (Error "not a number").

(** [bn.toString(10)]. *)
Definition toString10 (n : N) : string :=
  NilZero.string_of_uint (N.to_uint n).

(** [new BN(text, 10)]; text that is not a decimal numeral is rejected. *)
Definition BN10 (text : string) : outcome N :=
  match NilZero.uint_of_string text with
  | Some d => Returned (N.of_uint d)
  | None => Thrown (Error "Invalid character")
  end.

(** ** Sorting the logs *)

(** [compareNumberKeys(keys)]: property names are given as projections.  The
    loop-local [const result] is not in scope at the final [return], so
    falling out of the loop raises a ReferenceError. *)
Fixpoint compareNumberKeys {A : Type} (keys : list (A -> Z)) (a b : A)
  : outcome Z :=
  match keys with
  | [] => Thrown (ReferenceError "result")
  | key :: keys' =>
      let result := key a - key b in
      if negb (result =? 0) then Returned result
      else compareNumberKeys keys' a b
  end.

(** [Array.prototype.sort(compare)]: a stable insertion sort driven by the
    comparator; an exception of the comparator aborts the sort. *)
Fixpoint sort_insert {A : Type} (compare : A -> A -> outcome Z) (x : A)
  (sorted : list A) : outcome (list A) :=
  match sorted with
  | [] => Returned [x]
  | y :: rest =>
      c ← compare x y;
      if c <=? 0 then Returned (x :: y :: rest)
      else rest' ← sort_insert compare x rest; Returned (y :: rest')
  end.

Fixpoint sort {A : Type} (compare : A -> A -> outcome Z) (l : list A)
  : outcome (list A) :=
  match l with
  | [] => Returned []
  | x :: l' => sorted ← sort compare l'; sort_insert compare x sorted
  end.

(** ** Chain client interface *)

(** One entry of [getPastLogs]. *)
Module Log.
Record t : Type := mk {
  address : string;
  topics : list string;
  data : string;
  blockNumber : Z;
  transactionIndex : Z;
  logIndex : Z }.
End Log.
Abbreviation log := Log.t.

(** [ERC20Topics.APPROVAL]: the hash of "Approval(address,address,uint256)". *)
Definition APPROVAL : string :=
  "0x8c5be1e5ebec7d5bd14f71427d1e84f3dd0314c0f7b2291e5b200ac8c7c3b925".

Inductive blockTag : Type :=
| Latest
| Block (n : N).

Inductive call : Type :=
| Allowance (owner spender : string)
| BalanceOf (owner : string)
| Decimals
| GetAmountsOut (amountIn : N) (path : list string).

(** A read-only contract call queued in a batch:
    [contract.methods.m(args).call.request({}, blockNumber, cb)]. *)
Record request : Type := {
  req_to : string;
  req_call : call;
  req_block : blockTag }.

(** What a request callback [(error, result) => ...] is invoked with. *)
Inductive response (R : Type) : Type :=
| Failure (error : string)
| Success (result : R).
Arguments Failure {R} error.
Arguments Success {R} result.

(** [blockNumber || await w3.eth.getBlockNumber()] *)
Definition pinnedBlock (blockNumber : option N) (currentBlock : N) : N :=
  match blockNumber with
  | Some b => if (b =? 0)%N then currentBlock else b
  | None => currentBlock
  end.

(** ** Batch request coordinator *)

Section BatchRequest.
Context {Item Request Result Store : Type}.
Variable getRequest : Item -> outcome Request.
Variable handleItem : Item -> response Result -> Store -> Store.

(** The state captured by the promise executor: the batch, the two counters
    and whether [resolve] has been called; [store] is the caller's data the
    handler writes to. *)
Record batchPromise : Type := {
  requests : list Request;
  executed : bool;
  numRequests : nat;
  numResponses : nat;
  resolved : bool;
  store : Store }.

(** The executor body: one request per item is added, then the batch is
    executed.  Nothing here calls [resolve]. *)
Definition executor (items : list Item) (s : Store) : outcome batchPromise :=
  reqs ← mapM getRequest items;
  Returned {| requests := reqs; executed := true;
              numRequests := length items; numResponses := 0%nat;
              resolved := false; store := s |}.

(** The callback [cb] of one item. *)
Definition cb (item : Item) (r : response Result) (p : batchPromise)
  : batchPromise :=
  let n := S (numResponses p) in
  {| requests := requests p; executed := executed p;
     numRequests := numRequests p;
     numResponses := n;
     store := handleItem item r (store p);
     resolved := resolved p || (n =? numRequests p)%nat |}.

(** The chain client invokes the callback of one outstanding request. *)
Inductive delivers : list Item * batchPromise -> list Item * batchPromise -> Prop :=
| delivers_cb before item after r p :
    delivers ((before ++ item :: after)%list, p) ((before ++ after)%list, cb item r p).

(** Callbacks fired in the order of a schedule. *)
Definition fire (schedule : list (Item * response Result)) (p : batchPromise)
  : batchPromise :=
  foldl (fun p ir => cb ir.1 ir.2 p) p schedule.

(** [await makeBatchRequestPromise(w3, items, getRequest, handleItem)] when
    the client answers as in [schedule].  Every caller passes a handler, and
    no handler uses the [resolve] and [reject] arguments it is given. *)
Definition makeBatchRequestPromise (items : list Item) (s : Store)
  (schedule : list (Item * response Result)) : outcome Store :=
  p ← executor items s;
  let p' := fire schedule p in
  if resolved p' then Returned (store p') else Pending.
End BatchRequest.

Arguments batchPromise : clear implicits.

(** ** Approval reconstruction *)

Definition unpadAddress (address : string) : outcome string :=
  if negb (String.prefix "0x000000000000000000000000" address)
  then Thrown (Error "Not an address")
  else Returned ("0x" +:+ slice_last 40 address).

(** A value of [approvalMap]: [{amount}], later extended by the allowance
    handler. *)
Module Entry.
Record t : Type := mk {
  amount : string;
  allowance : option string;
  allowanceError : option bool }.
Definition setAllowance (v : string) (e : t) : t :=
  mk (amount e) (Some v) (allowanceError e).
Definition setAllowanceError (e : t) : t :=
  mk (amount e) (allowance e) (Some true).
End Entry.

(** An element of the report's [approvals]. *)
Module Approval.
Record t : Type := mk {
  contract : string;
  spender : string;
  amount : string;
  allowance : option string;
  allowanceError : option bool }.
End Approval.
Abbreviation approval := Approval.t.

Record report : Type := {
  owner : string;
  approvals : list approval }.

Abbreviation approvalMap := (gmap string Entry.t).

(** [[contractAddress, spender].join(".")] *)
Definition approvalKey (contractAddress spender : string) : string :=
  contractAddress +:+ ("." +:+ spender).

Definition nullAddress : string := padLeft "0x0" 40.

(** The body of [approvalLogs.forEach]. *)
Definition recordApproval (addressLower : string) (txLog : log)
  (m : approvalMap) : outcome approvalMap :=
  let action := js_nth 0 (Log.topics txLog) in
  let ownerPadded := js_nth 1 (Log.topics txLog) in
  let spenderPadded := js_nth 2 (Log.topics txLog) in
  if decide (action ≠ APPROVAL)
  then Thrown (Error "Unexpected non-Approval topic in query result logs")
  else
    owner ← unpadAddress ownerPadded;
    spender ← unpadAddress spenderPadded;
    if decide (owner ≠ addressLower)
    then Thrown (Error "Obtained an approval which is not from request owner")
    else
      let contractAddress := Log.address txLog in
      amount ← toString10 <$> toBN (Log.data txLog);
      Returned (<[approvalKey contractAddress spender := Entry.mk amount None None]> m).

(** Sorting the fetched logs and keeping the latest approval per key. *)
Definition reconstruct (address : string) (pastLogs : list log)
  : outcome approvalMap :=
  approvalLogs ← sort (compareNumberKeys
                         [Log.blockNumber; Log.transactionIndex; Log.logIndex])
                      pastLogs;
  forEach (recordApproval (toLowerCase address)) approvalLogs ∅.

(** [Object.keys(approvalMap)].  JavaScript enumerates the keys in insertion
    order, the finite map in its own canonical order: lists derived from the
    keys are modelled up to order. *)
Definition keys {V : Type} (m : gmap string V) : list string :=
  (map_to_list m).*1.

Definition validApprovals (m : approvalMap) : list string :=
  filter (fun key => js_nth 1 (split "." key) ≠ nullAddress) (keys m).

Definition allowanceRequest (address : string) (blockNumber : N) (key : string)
  : outcome request :=
  let contractAddress := js_nth 0 (split "." key) in
  let spender := js_nth 1 (split "." key) in
  Returned {| req_to := contractAddress;
              req_call := Allowance address spender;
              req_block := Block blockNumber |}.

Definition handleAllowance (key : string) (r : response string)
  (m : approvalMap) : approvalMap :=
  match r with
  | Failure _ => alter Entry.setAllowanceError key m
  | Success allowance => alter (Entry.setAllowance allowance) key m
  end.

(** [{contract: contractAddress, spender: spender, ...data}] *)
Definition approvalOf (key : string) (data : Entry.t) : approval :=
  Approval.mk (js_nth 0 (split "." key)) (js_nth 1 (split "." key))
    (Entry.amount data) (Entry.allowance data) (Entry.allowanceError data).

Definition getApprovals (address : string) (blockNumber : option N)
  (currentBlock : N) (pastLogs : list log)
  (allowances : list (string * response string)) : outcome report :=
  let blockNumber := pinnedBlock blockNumber currentBlock in
  m ← reconstruct address pastLogs;
  m' ← makeBatchRequestPromise (allowanceRequest address blockNumber)
         handleAllowance (validApprovals m) m allowances;
  Returned {| owner := address;
              approvals := (fun kd => approvalOf kd.1 kd.2) <$> map_to_list m' |}.

(** ** JavaScript numbers *)

Definition number : Type := spec_float.
Definition mul : number -> number -> number := SFmul 53 1024.
Definition div : number -> number -> number := SFdiv 53 1024.
Definition add : number -> number -> number := SFadd 53 1024.

(** The number an unsigned integer (a literal, a decimal text, a BN through
    its decimal text) converts to: the nearest binary64 value. *)
Definition Number (n : N) : number := binary_normalize 53 1024 (Z.of_N n) 0 false.

Definition NaN : number := S754_nan.
Definition Infinity : number := S754_infinity false.

(** Numbers that count as false in [x || y]: zeros and NaN. *)
Definition falsy (x : number) : bool :=
  match x with
  | S754_zero _ | S754_nan => true
  | _ => false
  end.

Definition isZero (x : number) : bool :=
  match x with
  | S754_zero _ => true
  | _ => false
  end.

Definition isFinite (x : number) : bool :=
  match x with
  | S754_zero _ | S754_finite _ _ _ => true
  | _ => false
  end.

(** [BN.min(left, right)]: [left] if [left.cmp(right) < 0], else [right]. *)
Definition BN_min (left right : N) : N :=
  if (left <? right)%N then left else right.

(** ** Risk scoring *)

Definition UniswapV2Router02 : string := "0x7a250d5630B4cF539739dF2C5dAcb4c659F2488D".
Definition WETH : string := "0xc02aaa39b223fe8d0a0e5c4f27ead9083c756cc2".

(** A value of [balances]: the number 0 the handler stores when the call
    failed, or the uint256 the call returned, taken as an unsigned big
    integer, the operand type of [BN.min]. *)
Inductive balanceValue : Type :=
| Zero
| Big (balance : N).

(** [{...approval, risk, balance}] *)
Module Scored.
Record t : Type := mk {
  approval : Approval.t;
  risk : number;
  balance : option balanceValue }.
End Scored.

Record scoredReport : Type := {
  scored_owner : string;
  scored_approvals : list Scored.t }.

(** [[...new Set(list)]]: first occurrences, in order. *)
Fixpoint newSet (l : list string) : list string :=
  match l with
  | [] => []
  | x :: l' => x :: filter (fun y => y ≠ x) (newSet l')
  end.

Definition getTokenWeiExchangeRateRequest (tokenAddress : string)
  (blockNumber : N) (decimals : string) : outcome request :=
  let blockNumber := if (blockNumber =? 0)%N then Latest else Block blockNumber in
  ten ← BN10 "10";
  exponent ← BN10 decimals;
  Returned {| req_to := UniswapV2Router02;
              req_call := GetAmountsOut (ten ^ exponent)%N [tokenAddress; WETH];
              req_block := blockNumber |}.

Section AddApprovalRiskScore.
Variable owner : string.
Variable blockNumber : N.

Definition balanceRequest (a : approval) : outcome request :=
  Returned {| req_to := Approval.contract a;
              req_call := BalanceOf owner;
              req_block := Block blockNumber |}.

Definition handleBalance (a : approval) (r : response N)
  (balances : gmap string balanceValue) : gmap string balanceValue :=
  let balance := match r with
                 | Failure _ => Zero
                 | Success balance => Big balance
                 end in
  <[Approval.contract a := balance]> balances.

Definition decimalsRequest (tokenAddress : string) : outcome request :=
  Returned {| req_to := tokenAddress;
              req_call := Decimals;
              req_block := Block blockNumber |}.

Definition handleDecimals (tokenAddress : string) (r : response string)
  (decimalsMap : gmap string string) : gmap string string :=
  let decimals := match r with
                  | Failure _ => "18"
                  | Success decimals => decimals
                  end in
  <[tokenAddress := decimals]> decimalsMap.

Definition exchangeRateRequest (decimalsMap : gmap string string)
  (tokenAddress : string) : outcome request :=
  match decimalsMap !! tokenAddress with
  | Some decimals => getTokenWeiExchangeRateRequest tokenAddress blockNumber decimals
  | None => Thrown (TypeError "Cannot read properties of undefined")
  end.

Definition handleRates (tokenAddress : string) (r : response (list N))
  (exchangeRates : gmap string number) : gmap string number :=
  let rates := match r with
               | Failure _ => [Number 1; Number 0]
               | Success rates => Number <$> rates
               end in
  let amountInToken := nth 0 rates NaN in
  let amountInWei := nth 1 rates NaN in
  <[tokenAddress := div amountInWei amountInToken]> exchangeRates.

(** The [if (etherscanApiKey)] block: [reputation] is not in scope inside
    the loop, [url] is not in scope after it. *)
Definition verifyContracts (etherscanApiKey : option string)
  (tokenAddresses : list string) : outcome (gset string) :=
  match etherscanApiKey with
  | Some key =>
      if decide (key = "") then Returned ∅
      else match tokenAddresses with
           | _ :: _ => Thrown (ReferenceError "reputation")
           | [] => Thrown (ReferenceError "url")
           end
  | None => Returned ∅
  end.

Section GetRiskScore.
Variable reputations : gmap string number.
Variable verifiedContracts : gset string.
Variable exchangeRates : gmap string number.
Variable balances : gmap string balanceValue.

Definition reputation (address : string) : number :=
  let baseline :=
    add (Number 1) (if decide (address ∈ verifiedContracts) then Number 1 else Number 0) in
  match reputations !! address with
  | Some r => if falsy r then baseline else r
  | None => baseline
  end.

Definition likelihood (contract spender : string) : number :=
  mul (reputation contract) (reputation spender).

Definition severity (token : string) (amount : N) : number :=
  mul (default NaN (exchangeRates !! token)) (Number amount).

(** [balances[approval.contract] || new BN(0)] *)
Definition balanceOrZero (contract : string) : N :=
  match balances !! contract with
  | Some (Big balance) => balance
  | Some Zero | None => 0%N
  end.

Definition amountAtRisk (a : approval) : outcome N :=
  amount ← BN10 (Approval.amount a);
  Returned (BN_min amount (balanceOrZero (Approval.contract a))).

Definition getRiskScore (a : approval) : outcome number :=
  atRisk ← amountAtRisk a;
  Returned (mul (severity (Approval.contract a) atRisk)
                (likelihood (Approval.contract a) (Approval.spender a))).

Definition score (a : approval) : outcome Scored.t :=
  risk ← getRiskScore a;
  Returned (Scored.mk a risk (balances !! Approval.contract a)).
End GetRiskScore.
End AddApprovalRiskScore.

(** The answers of the chain client to the three batches of
    [addApprovalRiskScore], each in completion order. *)
Record riskAnswers : Type := {
  balanceAnswers : list (approval * response N);
  decimalsAnswers : list (string * response string);
  rateAnswers : list (string * response (list N)) }.

Definition addApprovalRiskScore (r : report) (blockNumber : option N)
  (reputations : option (gmap string number)) (etherscanApiKey : option string)
  (currentBlock : N) (answers : riskAnswers) : outcome scoredReport :=
  let reputations := default ∅ reputations in
  let blockNumber := pinnedBlock blockNumber currentBlock in
  let tokenAddresses := newSet (Approval.contract <$> approvals r) in
  balances ← makeBatchRequestPromise (balanceRequest (owner r) blockNumber)
                handleBalance (approvals r) ∅ (balanceAnswers answers);
  decimalsMap ← makeBatchRequestPromise (decimalsRequest blockNumber)
                   handleDecimals tokenAddresses ∅ (decimalsAnswers answers);
  exchangeRates ← makeBatchRequestPromise (exchangeRateRequest blockNumber decimalsMap)
                     handleRates tokenAddresses ∅ (rateAnswers answers);
  verifiedContracts ← verifyContracts etherscanApiKey tokenAddresses;
  scored ← mapM (score reputations verifiedContracts exchangeRates balances) (approvals r);
  Returned {| scored_owner := owner r; scored_approvals := scored |}.

(** ** The command line entry point *)

(** The options [main] reads; the endpoint only selects the chain client. *)
Record argv : Type := {
  argv_address : string;
  argv_etherscanApiKey : option string;
  argv_calculateRisk : bool }.

(** What [main] hands to [console.log(JSON.stringify(result, null, 1))]. *)
Inductive printed : Type :=
| PlainReport (r : report)
| RiskReport (r : scoredReport).

(** [main]: the block number is read once and passed to both stages;
    [laterBlock] is what a stage would read for itself if it were passed a
    block number of 0. *)
Definition main (args : argv) (blockNumber laterBlock : N) (pastLogs : list log)
  (allowances : list (string * response string)) (answers : riskAnswers)
  : outcome printed :=
  result ← getApprovals (argv_address args) (Some blockNumber) laterBlock
             pastLogs allowances;
  if argv_calculateRisk args
  then result ← addApprovalRiskScore result (Some blockNumber) None
                  (argv_etherscanApiKey args) laterBlock answers;
       Returned (RiskReport result)
  else Returned (PlainReport result).

(** ** Vocabulary of the statements *)

(** Chain order of two logs: (blockNumber, transactionIndex, logIndex),
    lexicographically. *)
Definition before (a b : log) : Prop :=
  Log.blockNumber a < Log.blockNumber b
  ∨ (Log.blockNumber a = Log.blockNumber b
     ∧ (Log.transactionIndex a < Log.transactionIndex b
        ∨ (Log.transactionIndex a = Log.transactionIndex b
           ∧ Log.logIndex a < Log.logIndex b))).

Definition samePosition (a b : log) : Prop :=
  Log.blockNumber a = Log.blockNumber b
  ∧ Log.transactionIndex a = Log.transactionIndex b
  ∧ Log.logIndex a = Log.logIndex b.

Definition positionKeys : list (log -> Z) :=
  [Log.blockNumber; Log.transactionIndex; Log.logIndex].

(** The spender and the amount [recordApproval] decodes from a log. *)
Definition spenderOf (txLog : log) : outcome string :=
  unpadAddress (js_nth 2 (Log.topics txLog)).

Definition amountOf (txLog : log) : outcome string :=
  toString10 <$> toBN (Log.data txLog).

(** The key [recordApproval] files a log under. *)
Definition keyOf (txLog : log) : outcome string :=
  approvalKey (Log.address txLog) <$> spenderOf txLog.

(** Text without the glue character of [approvalKey]. *)
Fixpoint dotFree (s : string) : bool :=
  match s with
  | EmptyString => true
  | String c s' => negb (Ascii.eqb c ".") && dotFree s'
  end.

(** ** Sample data *)

Module Sample.
Definition O : string := "0x224e69025a2f705c8f31efb6694398f8fd09ac5c".
Definition O_topic : string :=
  "0x000000000000000000000000224e69025a2f705c8f31efb6694398f8fd09ac5c".
Definition S1 : string := "0x7a250d5630b4cf539739df2c5dacb4c659f2488d".
Definition S1_topic : string :=
  "0x0000000000000000000000007a250d5630b4cf539739df2c5dacb4c659f2488d".
Definition S2 : string := "0x1111111254fb6c44bac0bed2854e76f90643097d".
Definition zero_topic : string :=
  "0x0000000000000000000000000000000000000000000000000000000000000000".
Definition C : string := "0x6B175474E89094C44Da98b954EedeAC495271d0F".

(** amount 100 at block 10, then amount 50 at block 20, same key *)
Definition first : log :=
  Log.mk C [APPROVAL; O_topic; S1_topic]
    "0x0000000000000000000000000000000000000000000000000000000000000064" 10 0 0.
Definition second : log :=
  Log.mk C [APPROVAL; O_topic; S1_topic]
    "0x0000000000000000000000000000000000000000000000000000000000000032" 20 0 0.
(** another spender, same contract *)
Definition S2_topic : string :=
  "0x0000000000000000000000001111111254fb6c44bac0bed2854e76f90643097d".
Definition other : log :=
  Log.mk C [APPROVAL; O_topic; S2_topic]
    "0x0000000000000000000000000000000000000000000000000000000000000009" 15 1 3.
(** an approval of the zero address *)
Definition toNobody : log :=
  Log.mk C [APPROVAL; O_topic; zero_topic]
    "0x0000000000000000000000000000000000000000000000000000000000000001" 30 2 5.
(** the same position as [second], delivered twice by the node *)
Definition secondAgain : log :=
  Log.mk C [APPROVAL; O_topic; S1_topic]
    "0x0000000000000000000000000000000000000000000000000000000000000032" 20 0 0.

Definition fourLogs : list log := [second; other; first; toNobody].
Definition threeEntries : approvalMap :=
  <[approvalKey C nullAddress := Entry.mk "1" None None]>
    (<[approvalKey C S2 := Entry.mk "9" None None]>
       {[ approvalKey C S1 := Entry.mk "50" None None ]}).
(** the allowance call for S1 fails, the one for S2 succeeds *)
Definition allowances : list (string * response string) :=
  [(approvalKey C S1, Failure "timeout"); (approvalKey C S2, Success "7")].

(** only an approval of the zero address *)
Definition nobodyOnly : approvalMap :=
  {[ approvalKey C nullAddress := Entry.mk "1" None None ]}.
(** the same answers in the other completion order *)
Definition allowancesSwapped : list (string * response string) :=
  [(approvalKey C S2, Success "7"); (approvalKey C S1, Failure "timeout")].

Definition a1 : approval := Approval.mk C S1 "5" (Some "5") None.
Definition a2 : approval := Approval.mk C S2 "9" (Some "9") None.
Definition one : report := {| owner := O; approvals := [a1] |}.
Definition C2 : string := "0xA0b86991c6218b36c1d19D4a2e9Eb0cE3606eB48".


(** every call succeeds: balance 5, decimals 0, quote 1 token = 2 wei *)
Definition allFine : riskAnswers :=
  {| balanceAnswers := [(a1, Success 5%N)];
     decimalsAnswers := [(C, Success "0")];
     rateAnswers := [(C, Success [1%N; 2%N])] |}.
(** the balance call fails *)
Definition noBalance : riskAnswers :=
  {| balanceAnswers := [(a1, Failure "execution reverted")];
     decimalsAnswers := [(C, Success "0")];
     rateAnswers := [(C, Success [1%N; 2%N])] |}.
Definition noBalanceReport : scoredReport :=
  {| scored_owner := O;
     scored_approvals := [Scored.mk a1 (S754_zero false) (Some Zero)] |}.
Definition two : report := {| owner := O; approvals := [a1; a2] |}.
(** one allowance answered out of two *)
Definition oneOfTwo : list (string * response string) :=
  [(approvalKey C S1, Success "3")].
(** the report [getApprovals] gives on [fourLogs] and [allowances] *)
Definition threeApprovals : report :=
  {| owner := O;
     approvals := [Approval.mk C S1 "50" None (Some true);
                   Approval.mk C S2 "9" (Some "7") None;
                   Approval.mk C nullAddress "1" None None] |}.
(** the quote call fails *)
Definition noQuote : riskAnswers :=
  {| balanceAnswers := [(a1, Success 5%N)];
     decimalsAnswers := [(C, Success "0")];
     rateAnswers := [(C, Failure "execution reverted")] |}.
Definition riskWithKey : argv :=
  {| argv_address := O; argv_etherscanApiKey := Some "KEY"; argv_calculateRisk := true |}.
End Sample.

(** * Properties *)

(** ** Outcomes *)

Lemma bind_Returned {A B} (f : A -> outcome B) (m : outcome A) (b : B) :
  m ≫= f = Returned b <-> exists a, m = Returned a /\ f a = Returned b.
Proof.
  destruct m as [a| |]; simpl; split.
  - intros H. exists a. split; [reflexivity|exact H].
  - intros (a' & Ha & Hf). injection Ha as ->. exact Hf.
  - discriminate.
  - intros (a' & Ha & _). discriminate.
  - discriminate.
  - intros (a' & Ha & _). discriminate.
Qed.

Lemma fmap_Returned {A B} (f : A -> B) (m : outcome A) (b : B) :
  f <$> m = Returned b <-> exists a, m = Returned a /\ b = f a.
Proof.
  destruct m as [a| |]; simpl; split.
  - intros [= <-]. eauto.
  - intros (a' & [= <-] & ->). reflexivity.
  - discriminate.
  - intros (a' & Ha & _). discriminate.
  - discriminate.
  - intros (a' & Ha & _). discriminate.
Qed.

Lemma forEach_app {A S} (body : A -> S -> outcome S) (l1 l2 : list A) (s : S) :
  forEach body (l1 ++ l2) s = forEach body l1 s ≫= forEach body l2.
Proof.
  revert s. induction l1 as [|x l1 IH]; intros s; simpl.
  - reflexivity.
  - destruct (body x s) as [s'| |]; simpl; [apply IH|reflexivity|reflexivity].
Qed.

(** ** The comparator *)

Lemma compareNumberKeys_equal {A} (keys : list (A -> Z)) (a b : A) :
  Forall (fun key => key a = key b) keys ->
  compareNumberKeys keys a b = Thrown (ReferenceError "result").
Proof.
  induction 1 as [|key keys Hkey _ IH]; simpl.
  - reflexivity.
  - rewrite Hkey, Z.sub_diag. simpl. exact IH.
Qed.

Lemma compareNumberKeys_never_zero {A} (keys : list (A -> Z)) (a b : A) c :
  compareNumberKeys keys a b = Returned c -> c <> 0.
Proof.
  induction keys as [|key keys IH]; simpl; [discriminate|].
  destruct (key a - key b =? 0) eqn:E; simpl.
  - exact IH.
  - intros [= <-]. apply Z.eqb_neq. exact E.
Qed.

Lemma compare_position_spec (a b : log) :
  match compareNumberKeys positionKeys a b with
  | Returned c => (c < 0 /\ before a b) \/ (0 < c /\ before b a)
  | Thrown e => e = ReferenceError "result" /\ samePosition a b
  | Pending => False
  end.
Proof.
  unfold positionKeys, before, samePosition. simpl.
  destruct (Z.eqb_spec (Log.blockNumber a - Log.blockNumber b) 0); simpl; [|lia].
  destruct (Z.eqb_spec (Log.transactionIndex a - Log.transactionIndex b) 0); simpl; [|lia].
  destruct (Z.eqb_spec (Log.logIndex a - Log.logIndex b) 0); simpl; [|lia].
  split; [reflexivity|lia].
Qed.

#[local] Instance before_trans : Transitive before.
Proof. unfold before. intros a b c. lia. Qed.

Lemma before_irrefl (a : log) : ~ before a a.
Proof. unfold before. lia. Qed.

Lemma before_asym (a b : log) : before a b -> ~ before b a.
Proof. unfold before. lia. Qed.

(** ** Sorting *)

Section Sorting.
Context {A : Type} (compare : A -> A -> outcome Z) (R : relation A).
Context `{!Transitive R}.
Hypothesis compare_le : forall x y c, compare x y = Returned c -> c <= 0 -> R x y.
Hypothesis compare_gt : forall x y c, compare x y = Returned c -> 0 < c -> R y x.

Lemma sort_insert_sorted x sorted out :
  StronglySorted R sorted ->
  sort_insert compare x sorted = Returned out ->
  out ≡ₚ x :: sorted /\ StronglySorted R out.
Proof.
  revert out. induction sorted as [|y rest IH]; simpl; intros out Hs Hout.
  - injection Hout as <-. split; [reflexivity|]. repeat constructor.
  - apply bind_Returned in Hout as (c & Hc & Hout).
    apply StronglySorted_cons in Hs as [Hy Hrest].
    destruct (Z.leb_spec c 0).
    + injection Hout as <-. split; [reflexivity|].
      assert (R x y) by eauto.
      apply StronglySorted_cons. split.
      * constructor; [assumption|].
        eapply Forall_impl; [exact Hy|]. intros z Hz. by transitivity y.
      * apply StronglySorted_cons. by split.
    + apply bind_Returned in Hout as (rest' & Hins & [= <-]).
      destruct (IH _ Hrest Hins) as [Hperm Hsorted].
      split.
      * rewrite Hperm. apply Permutation_swap.
      * apply StronglySorted_cons. split; [|assumption].
        rewrite Hperm. constructor; [eauto|assumption].
Qed.

Lemma sort_sorted l out :
  sort compare l = Returned out -> out ≡ₚ l /\ StronglySorted R out.
Proof.
  revert out. induction l as [|x l IH]; simpl; intros out Hout.
  - injection Hout as <-. split; [reflexivity|constructor].
  - apply bind_Returned in Hout as (sorted & Hsort & Hins).
    destruct (IH _ Hsort) as [Hperm Hsorted].
    destruct (sort_insert_sorted _ _ _ Hsorted Hins) as [Hperm' Hsorted'].
    split; [|assumption]. by rewrite Hperm', Hperm.
Qed.

(** The sort returns as soon as the comparator answers on every pair it is
    asked about. *)
Lemma sort_insert_returns x sorted :
  Forall (fun y => exists c, compare x y = Returned c) sorted ->
  exists out, sort_insert compare x sorted = Returned out.
Proof.
  induction 1 as [|y rest [c Hc] _ [out IH]]; simpl; [eauto|].
  rewrite Hc. simpl. destruct (c <=? 0); [eauto|].
  rewrite IH. simpl. eauto.
Qed.
End Sorting.

(** ** Reconstruction: the latest approval per key *)

Lemma recordApproval_Returned addressLower txLog m m' :
  recordApproval addressLower txLog m = Returned m' <->
  exists spender amount,
    js_nth 0 (Log.topics txLog) = APPROVAL
    /\ unpadAddress (js_nth 1 (Log.topics txLog)) = Returned addressLower
    /\ spenderOf txLog = Returned spender
    /\ amountOf txLog = Returned amount
    /\ m' = <[approvalKey (Log.address txLog) spender := Entry.mk amount None None]> m.
Proof.
  unfold recordApproval, spenderOf, amountOf.
  destruct (decide (js_nth 0 (Log.topics txLog) ≠ APPROVAL)) as [Hne|Heq].
  { split; [discriminate|]. intros (? & ? & ? & _). contradiction. }
  apply dec_stable in Heq.
  destruct (unpadAddress (js_nth 1 (Log.topics txLog))) as [owner| |]; simpl;
    try (split; [discriminate|]; intros (? & ? & _ & ? & _); discriminate).
  destruct (unpadAddress (js_nth 2 (Log.topics txLog))) as [spender| |]; simpl;
    try (split; [discriminate|]; intros (? & ? & _ & _ & ? & _); discriminate).
  destruct (decide (owner ≠ addressLower)) as [Hne|Howner].
  { split; [discriminate|]. intros (? & ? & _ & [= ?] & _). contradiction. }
  apply dec_stable in Howner. subst owner.
  destruct (toBN (Log.data txLog)) as [n| |]; simpl;
    try (split; [discriminate|]; intros (? & ? & _ & _ & _ & ? & _); discriminate).
  split.
  - intros [= <-]. eauto 10.
  - intros (? & ? & _ & _ & [= <-] & [= <-] & ->). reflexivity.
Qed.

Lemma keyOf_Returned txLog spender :
  spenderOf txLog = Returned spender ->
  keyOf txLog = Returned (approvalKey (Log.address txLog) spender).
Proof. unfold keyOf. by intros ->. Qed.

(** Each entry the loop writes starts with no allowance fields. *)
Lemma forEach_recordApproval_fresh addressLower logs m0 m :
  forEach (recordApproval addressLower) logs m0 = Returned m ->
  map_Forall (fun _ e => Entry.allowance e = None /\ Entry.allowanceError e = None) m0 ->
  map_Forall (fun _ e => Entry.allowance e = None /\ Entry.allowanceError e = None) m.
Proof.
  revert m0. induction logs as [|l logs IH]; simpl; intros m0 Hrun Hm0.
  - by injection Hrun as <-.
  - apply bind_Returned in Hrun as (m1 & Hl & Hrun).
    apply (IH _ Hrun).
    apply recordApproval_Returned in Hl as (spender & amount & _ & _ & _ & _ & ->).
    by apply map_Forall_insert_2.
Qed.

(** On logs in chain order the loop leaves, under each key, the amount of the
    last log filed under that key. *)
Lemma forEach_recordApproval_latest addressLower sorted m :
  StronglySorted before sorted ->
  forEach (recordApproval addressLower) sorted ∅ = Returned m ->
  (forall key, is_Some (m !! key) <-> exists l, l ∈ sorted /\ keyOf l = Returned key)
  /\ forall l, l ∈ sorted ->
       exists latest key amount,
         latest ∈ sorted
         /\ keyOf l = Returned key /\ keyOf latest = Returned key
         /\ amountOf latest = Returned amount
         /\ (forall l', l' ∈ sorted -> keyOf l' = Returned key ->
                        l' = latest \/ before l' latest)
         /\ m !! key = Some (Entry.mk amount None None).
Proof.
  revert m. induction sorted as [|x sorted IH] using rev_ind; intros m Hsorted Hrun.
  - injection Hrun as <-. split.
    + intros key. rewrite lookup_empty. split.
      * intros [? [=]].
      * intros (l & Hl & _). by apply elem_of_nil in Hl.
    + intros l Hl. by apply elem_of_nil in Hl.
  - rewrite forEach_app in Hrun.
    apply bind_Returned in Hrun as (m0 & Hrun & Hx). simpl in Hx.
    apply bind_Returned in Hx as (m1 & Hx & [= <-]).
    apply recordApproval_Returned in Hx
      as (spender & amount & _ & _ & Hspender & Hamount & ->).
    pose proof (keyOf_Returned _ _ Hspender) as Hkx.
    apply StronglySorted_app in Hsorted as (Hbefore & Hsorted & _).
    destruct (IH _ Hsorted Hrun) as [IHdom IHlatest]. clear IH.
    assert (Hlast : forall l', l' ∈ sorted ++ [x] -> l' = x \/ before l' x).
    { intros l' [Hl'|Hl']%elem_of_app.
      - right. apply Hbefore; [assumption|]. by apply list_elem_of_singleton.
      - left. by apply list_elem_of_singleton in Hl'. }
    split.
    + intros key. rewrite lookup_insert_is_Some, IHdom. split.
      * intros [<-|[_ (l & Hl & Hk)]].
        -- exists x. split; [|assumption]. apply elem_of_app. right. by left.
        -- exists l. split; [|assumption]. apply elem_of_app. by left.
      * intros (l & [Hl|Hl]%elem_of_app & Hk).
        -- destruct (decide (approvalKey (Log.address x) spender = key)); [by left|].
           right. split; [assumption|]. eauto.
        -- apply list_elem_of_singleton in Hl as ->. left. congruence.
    + intros l Hl.
      destruct (decide (keyOf l = Returned (approvalKey (Log.address x) spender)))
        as [Hsame|Hother].
      * exists x, (approvalKey (Log.address x) spender), amount.
        repeat split; try assumption.
        -- apply elem_of_app. right. by left.
        -- intros l' Hl' _. by apply Hlast.
        -- apply lookup_insert_eq.
      * assert (Hl0 : l ∈ sorted).
        { apply elem_of_app in Hl as [Hl|Hl]; [assumption|].
          apply list_elem_of_singleton in Hl as ->. contradiction. }
        destruct (IHlatest _ Hl0)
          as (latest & key & amount' & Hin & Hkl & Hklatest & Ham & Hmax & Hm0).
        exists latest, key, amount'.
        assert (key ≠ approvalKey (Log.address x) spender) by congruence.
        repeat split; try assumption.
        -- apply elem_of_app. by left.
        -- intros l' [Hl'|Hl']%elem_of_app Hkl'; [by apply Hmax|].
           apply list_elem_of_singleton in Hl' as ->. congruence.
        -- by rewrite lookup_insert_ne.
Qed.

(** ** Keys *)

Lemma append_nil (t : string) : "" +:+ t = t.
Proof. reflexivity. Qed.

Lemma append_cons (a : ascii) (s t : string) :
  String a s +:+ t = String a (s +:+ t).
Proof. reflexivity. Qed.

Lemma approvalKey_inj c1 s1 c2 s2 :
  dotFree c1 = true -> dotFree c2 = true ->
  approvalKey c1 s1 = approvalKey c2 s2 -> c1 = c2 /\ s1 = s2.
Proof.
  unfold approvalKey. revert c2.
  induction c1 as [|a c1 IH]; intros [|b c2]; simpl;
    repeat (rewrite append_cons || rewrite append_nil); intros H1 H2 Heq.
  - by injection Heq as ->.
  - injection Heq as <- _. by rewrite Ascii.eqb_refl in H2.
  - injection Heq as -> _. by rewrite Ascii.eqb_refl in H1.
  - injection Heq as -> Heq.
    apply andb_true_iff in H1 as [_ H1]. apply andb_true_iff in H2 as [_ H2].
    destruct (IH _ H1 H2 Heq) as [-> ->]. done.
Qed.

Lemma split_dotFree s : dotFree s = true -> split "." s = [s].
Proof.
  induction s as [|a s IH]; simpl; [done|].
  intros [Ha Hs]%andb_true_iff. apply negb_true_iff in Ha. rewrite Ha.
  by rewrite (IH Hs).
Qed.

Lemma split_approvalKey c s :
  dotFree c = true -> split "." (approvalKey c s) = c :: split "." s.
Proof.
  unfold approvalKey. change ("." +:+ s) with (String "." s).
  induction c as [|a c IH]; simpl;
    repeat (rewrite append_cons || rewrite append_nil); simpl; [done|].
  intros [Ha Hc]%andb_true_iff. apply negb_true_iff in Ha. rewrite Ha.
  by rewrite (IH Hc).
Qed.

(** The record of the report built from a key names the contract and the
    spender the key was glued from. *)
Lemma approvalOf_approvalKey c s data :
  dotFree c = true -> dotFree s = true ->
  approvalOf (approvalKey c s) data =
    Approval.mk c s (Entry.amount data) (Entry.allowance data) (Entry.allowanceError data).
Proof.
  intros Hc Hs. unfold approvalOf.
  by rewrite (split_approvalKey _ _ Hc), (split_dotFree _ Hs).
Qed.

Lemma reconstruct_Returned address pastLogs m :
  reconstruct address pastLogs = Returned m ->
  exists sorted,
    sorted ≡ₚ pastLogs /\ StronglySorted before sorted
    /\ forEach (recordApproval (toLowerCase address)) sorted ∅ = Returned m.
Proof.
  unfold reconstruct. intros (sorted & Hsort & Hrun)%bind_Returned.
  exists sorted. split_and!; [| |assumption].
  - eapply (sort_sorted _ before); [| |exact Hsort].
    + intros x y c Hc Hle. pose proof (compare_position_spec x y) as Hs.
      fold positionKeys in Hc. rewrite Hc in Hs. destruct Hs as [[_ ?]|[? _]]; [done|lia].
    + intros x y c Hc Hlt. pose proof (compare_position_spec x y) as Hs.
      fold positionKeys in Hc. rewrite Hc in Hs. destruct Hs as [[? _]|[_ ?]]; [lia|done].
  - eapply (sort_sorted _ before); [| |exact Hsort].
    + intros x y c Hc Hle. pose proof (compare_position_spec x y) as Hs.
      fold positionKeys in Hc. rewrite Hc in Hs. destruct Hs as [[_ ?]|[? _]]; [done|lia].
    + intros x y c Hc Hlt. pose proof (compare_position_spec x y) as Hs.
      fold positionKeys in Hc. rewrite Hc in Hs. destruct Hs as [[? _]|[_ ?]]; [lia|done].
Qed.

(** C1.  Whenever reconstruction of a list of Approval logs goes through
    (contract addresses being plain address text, free of the key's glue
    character), the approval map has an entry exactly for the
    (contract, spender) pairs of the logs, two different pairs never share an
    entry, and the entry of a pair holds the amount of the log that is
    greatest in (blockNumber, transactionIndex, logIndex) among the logs of
    that pair. *)
Theorem reconstruct_latest_per_key address pastLogs m :
  reconstruct address pastLogs = Returned m ->
  Forall (fun l => dotFree (Log.address l) = true) pastLogs ->
  (forall key, is_Some (m !! key) <->
     exists l spender, l ∈ pastLogs /\ spenderOf l = Returned spender
                       /\ key = approvalKey (Log.address l) spender)
  /\ (forall l1 l2 s1 s2,
        l1 ∈ pastLogs -> l2 ∈ pastLogs ->
        approvalKey (Log.address l1) s1 = approvalKey (Log.address l2) s2 ->
        Log.address l1 = Log.address l2 /\ s1 = s2)
  /\ forall l, l ∈ pastLogs ->
       exists latest spender amount,
         latest ∈ pastLogs
         /\ Log.address latest = Log.address l
         /\ spenderOf l = Returned spender
         /\ spenderOf latest = Returned spender
         /\ amountOf latest = Returned amount
         /\ (forall l', l' ∈ pastLogs -> Log.address l' = Log.address l ->
                        spenderOf l' = Returned spender ->
                        l' = latest \/ before l' latest)
         /\ m !! approvalKey (Log.address l) spender = Some (Entry.mk amount None None).
Proof.
  intros (sorted & Hperm & Hsorted & Hrun)%reconstruct_Returned Hdots.
  destruct (forEach_recordApproval_latest _ _ _ Hsorted Hrun) as [Hdom Hlatest].
  rewrite Forall_forall in Hdots.
  assert (Hkey : forall l key, keyOf l = Returned key <->
            exists spender, spenderOf l = Returned spender
                            /\ key = approvalKey (Log.address l) spender).
  { intros l key. unfold keyOf. apply fmap_Returned. }
  split_and!.
  - intros key. rewrite Hdom. split.
    + intros (l & Hl & (spender & Hs & ->)%Hkey).
      exists l, spender. by rewrite <- Hperm.
    + intros (l & spender & Hl & Hs & ->).
      exists l. rewrite Hperm. split; [assumption|]. apply Hkey. eauto.
  - intros l1 l2 s1 s2 Hl1 Hl2. apply approvalKey_inj; auto.
  - intros l Hl. rewrite <- Hperm in Hl.
    destruct (Hlatest _ Hl)
      as (latest & key & amount & Hin & (spender & Hs & ->)%Hkey
          & (spender' & Hs' & Heq)%Hkey & Ham & Hmax & Hm).
    rewrite Hperm in Hl, Hin.
    apply approvalKey_inj in Heq as [Heq <-]; [|by apply Hdots..].
    exists latest, spender, amount. split_and!; try done.
    intros l' Hl' Haddr Hsp. apply Hmax; [by rewrite Hperm|].
    apply Hkey. exists spender. by rewrite Haddr.
Qed.

Lemma reconstruct_latest_per_key_witness :
  reconstruct Sample.O [Sample.second; Sample.first]
    = Returned {[ approvalKey Sample.C Sample.S1 := Entry.mk "50" None None ]}
  /\ Forall (fun l => dotFree (Log.address l) = true) [Sample.second; Sample.first]
  /\ exists latest,
       latest ∈ [Sample.second; Sample.first]
       /\ amountOf latest = Returned "50"
       /\ (forall l', l' ∈ [Sample.second; Sample.first] ->
                      l' = latest \/ before l' latest)
       /\ ({[ approvalKey Sample.C Sample.S1 := Entry.mk "50" None None ]} : approvalMap)
            !! approvalKey Sample.C Sample.S1 = Some (Entry.mk "50" None None).
Proof.
  assert (Hrun : reconstruct Sample.O [Sample.second; Sample.first]
    = Returned {[ approvalKey Sample.C Sample.S1 := Entry.mk "50" None None ]})
    by (vm_compute; reflexivity).
  assert (Hdots : Forall (fun l => dotFree (Log.address l) = true)
                    [Sample.second; Sample.first])
    by (repeat constructor).
  split; [exact Hrun|]. split; [exact Hdots|].
  destruct (reconstruct_latest_per_key _ _ _ Hrun Hdots) as (_ & _ & Hlatest).
  destruct (Hlatest Sample.first) as (latest & spender & amount & Hin & _ & Hs & _ & Ham & Hmax & Hm).
  { apply list_elem_of_In. simpl. auto. }
  vm_compute in Hs. injection Hs as <-.
  exists latest. split; [assumption|].
  assert (amount = "50") as ->.
  { vm_compute in Hm. by injection Hm. }
  split; [assumption|]. split; [|vm_compute; reflexivity].
  intros l' Hl'. apply Hmax; [assumption| |].
  - apply list_elem_of_In in Hl'. simpl in Hl'. by destruct Hl' as [<-|[<-|[]]].
  - apply list_elem_of_In in Hl'. simpl in Hl'. by destruct Hl' as [<-|[<-|[]]].
Defined.

(** ** The batch coordinator *)

(** Case analysis on every comparison of naturals in the goal. *)
Ltac bool_cases :=
  repeat match goal with
    | |- context [(?a =? ?b)%nat] => destruct (Nat.eqb_spec a b)
    | |- context [(?a <? ?b)%nat] => destruct (Nat.ltb_spec a b)
    | |- context [(?a <=? ?b)%nat] => destruct (Nat.leb_spec a b)
    end;
  simpl; try reflexivity; lia.

Section BatchFacts.
Context {Item Request Result Store : Type}.
Variable getRequest : Item -> outcome Request.
Variable handleItem : Item -> response Result -> Store -> Store.

Abbreviation fire := (fire (Request:=Request) handleItem).
Abbreviation handled := (foldl (fun s ir => handleItem ir.1 ir.2 s)).

Lemma fire_numRequests schedule p :
  numRequests (fire schedule p) = numRequests p.
Proof.
  revert p. induction schedule as [|ir schedule IH]; intros p; simpl; [done|].
  by rewrite IH.
Qed.

Lemma fire_store schedule p :
  store (fire schedule p) = handled (store p) schedule.
Proof.
  revert p. induction schedule as [|ir schedule IH]; intros p; simpl; [done|].
  by rewrite IH.
Qed.

(** [resolve] is called exactly when the count of responses passes through
    the count of requests. *)
Lemma fire_resolved schedule p :
  resolved (fire schedule p) =
    resolved p
    || (numResponses p <? numRequests p)%nat
       && (numRequests p <=? numResponses p + length schedule)%nat.
Proof.
  revert p. induction schedule as [|ir schedule IH]; intros p.
  - change (fire [] p) with p. destruct (resolved p); [done|].
    change (length []) with 0%nat. bool_cases.
  - change (fire (ir :: schedule) p) with (fire schedule (cb handleItem ir.1 ir.2 p)).
    rewrite IH.
    change (resolved (cb handleItem ir.1 ir.2 p))
      with (resolved p || (S (numResponses p) =? numRequests p)%nat).
    change (numResponses (cb handleItem ir.1 ir.2 p)) with (S (numResponses p)).
    change (numRequests (cb handleItem ir.1 ir.2 p)) with (numRequests p).
    change (length (ir :: schedule)) with (S (length schedule)).
    destruct (resolved p); [done|]. bool_cases.
Qed.

Lemma makeBatchRequestPromise_Returned items s schedule s' :
  makeBatchRequestPromise getRequest handleItem items s schedule = Returned s' ->
  s' = handled s schedule /\ items <> [] /\ (length items <= length schedule)%nat.
Proof.
  unfold makeBatchRequestPromise, executor.
  intros (p & (reqs & _ & Hexec)%bind_Returned & Hp)%bind_Returned.
  simpl in Hexec. injection Hexec as <-.
  cbv zeta in Hp.
  match type of Hp with (if ?b then _ else _) = _ => destruct b eqn:Hres end;
    [|discriminate].
  injection Hp as <-. rewrite fire_resolved in Hres.
  cbn [resolved numResponses numRequests orb] in Hres.
  apply andb_true_iff in Hres as [H1%Nat.ltb_lt H2%Nat.leb_le].
  split_and!; [by rewrite fire_store| |lia].
  intros ->. simpl in H1. lia.
Qed.

Lemma mapM_Returned items :
  (forall item, exists q, getRequest item = Returned q) ->
  exists reqs, mapM getRequest items = Returned reqs.
Proof.
  intros Hreq. induction items as [|item items [reqs IH]]; simpl; [by eexists|].
  destruct (Hreq item) as [q ->]. simpl. rewrite IH. simpl. by eexists.
Qed.

(** When every request can be built and the client answers each item once,
    in any order, the promise resolves after the handler has run on every
    answer, provided there is at least one item. *)
Lemma makeBatchRequestPromise_answered items s schedule :
  (exists reqs, mapM getRequest items = Returned reqs) ->
  schedule.*1 ≡ₚ items ->
  items <> [] ->
  makeBatchRequestPromise getRequest handleItem items s schedule
    = Returned (handled s schedule).
Proof.
  intros [reqs Hreqs] Hperm Hne.
  unfold makeBatchRequestPromise, executor. rewrite Hreqs. simpl.
  rewrite fire_resolved, fire_store. simpl.
  apply Permutation_length in Hperm. rewrite length_fmap in Hperm.
  destruct items as [|item items]; [done|]. simpl in *.
  rewrite Hperm. by rewrite Nat.leb_refl.
Qed.

Lemma makeBatchRequestPromise_nil s schedule :
  makeBatchRequestPromise getRequest handleItem [] s schedule = Pending.
Proof.
  unfold makeBatchRequestPromise, executor. simpl.
  by rewrite fire_resolved.
Qed.

(** A schedule that answers every item once is a run of the client. *)
Lemma fire_delivers schedule waiting p :
  schedule.*1 ≡ₚ waiting ->
  rtc (delivers handleItem) (waiting, p) ([], fire schedule p).
Proof.
  revert waiting p. induction schedule as [|[item r] schedule IH];
    intros waiting p Hperm; simpl in *.
  - apply Permutation_nil_l in Hperm as <-. constructor.
  - assert (item ∈ waiting) as (before & after & ->)%list_elem_of_split.
    { rewrite <- Hperm. by left. }
    apply Permutation_cons_app_inv in Hperm.
    eapply rtc_l; [apply delivers_cb|]. by apply IH.
Qed.
End BatchFacts.

(** C4.  With an empty item collection the executor still executes the
    (empty) batch, no callback is outstanding that could call [resolve], and
    the promise is never resolved, whatever the client does. *)
Theorem empty_batch_never_resolves {Item Request Result Store : Type}
  (getRequest : Item -> outcome Request)
  (handleItem : Item -> response Result -> Store -> Store)
  (s : Store) (schedule : list (Item * response Result)) :
  let p0 := {| requests := []; executed := true; numRequests := 0%nat;
               numResponses := 0%nat; resolved := false; store := s |} in
  executor getRequest [] s = Returned p0
  /\ (forall st, ~ delivers handleItem ([], p0) st)
  /\ makeBatchRequestPromise getRequest handleItem [] s schedule = Pending.
Proof.
  split_and!.
  - reflexivity.
  - intros st Hstep. inversion Hstep as [before item after r p Hw].
    by destruct before.
  - apply makeBatchRequestPromise_nil.
Qed.

(** ** The allowance pass *)

(** What the allowance handler turns an entry into. *)
Lemma handleAllowance_lookup key r m k :
  handleAllowance key r m !! k =
    if decide (key = k)
    then match r with
         | Failure _ => Entry.setAllowanceError <$> m !! k
         | Success allowance => Entry.setAllowance allowance <$> m !! k
         end
    else m !! k.
Proof.
  unfold handleAllowance. destruct r; rewrite lookup_alter; by case_decide; subst.
Qed.

Lemma handled_allowance_notin schedule (m : approvalMap) k :
  k ∉ schedule.*1 ->
  foldl (fun s ir => handleAllowance ir.1 ir.2 s) m schedule !! k = m !! k.
Proof.
  revert m. induction schedule as [|[key r] schedule IH]; intros m Hk; simpl; [done|].
  apply not_elem_of_cons in Hk as [Hne Hk].
  rewrite IH by done. rewrite handleAllowance_lookup. simpl in Hne.
  by rewrite decide_False by done.
Qed.

Lemma handled_allowance_in schedule (m : approvalMap) k r :
  NoDup schedule.*1 ->
  (k, r) ∈ schedule ->
  foldl (fun s ir => handleAllowance ir.1 ir.2 s) m schedule !! k =
    match r with
    | Failure _ => Entry.setAllowanceError <$> m !! k
    | Success allowance => Entry.setAllowance allowance <$> m !! k
    end.
Proof.
  revert m. induction schedule as [|[key r'] schedule IH]; intros m Hnd Hin; simpl.
  - by apply elem_of_nil in Hin.
  - apply NoDup_cons in Hnd as [Hkey Hnd].
    apply elem_of_cons in Hin as [[= <- <-]|Hin].
    + rewrite handled_allowance_notin by done.
      rewrite handleAllowance_lookup. by rewrite decide_True.
    + rewrite IH by done.
      assert (key ≠ k).
      { intros ->. apply Hkey. apply list_elem_of_fmap. by exists (k, r). }
      rewrite handleAllowance_lookup. by rewrite decide_False.
Qed.

Lemma validApprovals_NoDup (m : approvalMap) : NoDup (validApprovals m).
Proof. apply NoDup_filter, NoDup_fst_map_to_list. Qed.

Lemma elem_of_validApprovals (m : approvalMap) key :
  key ∈ validApprovals m <->
  js_nth 1 (split "." key) ≠ nullAddress /\ is_Some (m !! key).
Proof.
  unfold validApprovals, keys. rewrite list_elem_of_filter, list_elem_of_fmap.
  split; intros [Hvalid Hkey]; (split; [done|]).
  - destruct Hkey as ([k e] & -> & He). apply elem_of_map_to_list in He. by eexists.
  - destruct Hkey as [e He]. exists (key, e). split; [done|].
    by apply elem_of_map_to_list.
Qed.

Lemma reconstruct_fresh address pastLogs m key e :
  reconstruct address pastLogs = Returned m ->
  m !! key = Some e ->
  e = Entry.mk (Entry.amount e) None None.
Proof.
  intros (sorted & _ & _ & Hrun)%reconstruct_Returned He.
  apply forEach_recordApproval_fresh in Hrun; [|apply map_Forall_empty].
  destruct (Hrun _ _ He) as [H1 H2]. destruct e; simpl in *. by subst.
Qed.

(** C5.  When the allowance batch is answered (each key of the batch once, in
    any order), [getApprovals] returns; the record of every key whose call
    failed carries [allowanceError = true] and no allowance, the record of
    every key whose call succeeded carries the returned allowance and no
    error flag, and entries outside the batch are untouched. *)
Theorem allowance_fault_isolation address blockNumber currentBlock pastLogs
  (allowances : list (string * response string)) m :
  reconstruct address pastLogs = Returned m ->
  allowances.*1 ≡ₚ validApprovals m ->
  allowances <> [] ->
  exists m' : approvalMap,
    getApprovals address blockNumber currentBlock pastLogs allowances
      = Returned {| owner := address;
                    approvals := (fun kd => approvalOf kd.1 kd.2) <$> map_to_list m' |}
    /\ (forall key answer, (key, answer) ∈ allowances ->
          exists amount,
            m !! key = Some (Entry.mk amount None None)
            /\ m' !! key = Some match answer with
                                | Failure _ => Entry.mk amount None (Some true)
                                | Success allowance => Entry.mk amount (Some allowance) None
                                end)
    /\ (forall key, key ∉ allowances.*1 -> m' !! key = m !! key).
Proof.
  intros Hm Hperm Hne.
  exists (foldl (fun s ir => handleAllowance ir.1 ir.2 s) m allowances).
  assert (Hnd : NoDup allowances.*1).
  { rewrite Hperm. apply validApprovals_NoDup. }
  split_and!.
  - unfold getApprovals. rewrite Hm. simpl.
    rewrite makeBatchRequestPromise_answered; [done| |done|].
    + apply mapM_Returned. intros key. by eexists.
    + intros Hnil. rewrite Hnil in Hperm.
      apply Permutation_nil_r in Hperm. by destruct allowances.
  - intros key answer Hin.
    assert (Hvalid : key ∈ validApprovals m).
    { rewrite <- Hperm. apply list_elem_of_fmap. by exists (key, answer). }
    apply elem_of_validApprovals in Hvalid as [_ [e He]].
    pose proof (reconstruct_fresh _ _ _ _ _ Hm He) as Hfresh.
    exists (Entry.amount e). split; [by rewrite He, Hfresh at 1|].
    rewrite (handled_allowance_in _ _ _ _ Hnd Hin), He.
    rewrite Hfresh. by destruct answer.
  - intros key Hkey. by apply handled_allowance_notin.
Qed.

Lemma allowance_fault_isolation_witness :
  reconstruct Sample.O Sample.fourLogs = Returned Sample.threeEntries
  /\ Sample.allowances.*1 ≡ₚ validApprovals Sample.threeEntries
  /\ Sample.allowances <> []
  /\ exists m' : approvalMap,
       getApprovals Sample.O None 100 Sample.fourLogs Sample.allowances
         = Returned {| owner := Sample.O;
                       approvals := (fun kd => approvalOf kd.1 kd.2) <$> map_to_list m' |}
       /\ m' !! approvalKey Sample.C Sample.S1 = Some (Entry.mk "50" None (Some true))
       /\ m' !! approvalKey Sample.C Sample.S2 = Some (Entry.mk "9" (Some "7") None)
       /\ m' !! approvalKey Sample.C nullAddress = Some (Entry.mk "1" None None).
Proof.
  assert (Hm : reconstruct Sample.O Sample.fourLogs = Returned Sample.threeEntries)
    by (vm_compute; reflexivity).
  assert (Hperm : Sample.allowances.*1 ≡ₚ validApprovals Sample.threeEntries)
    by (vm_compute; reflexivity).
  assert (Hne : Sample.allowances <> []) by discriminate.
  split_and!; [exact Hm|exact Hperm|exact Hne|].
  destruct (allowance_fault_isolation Sample.O None 100 _ _ _ Hm Hperm Hne)
    as (m' & Hret & Hin & Hout).
  exists m'. split_and!; [exact Hret| | |].
  - destruct (Hin (approvalKey Sample.C Sample.S1) (Failure "timeout"))
      as (amount & Ham & ->); [by left|].
    vm_compute in Ham. by injection Ham as <-.
  - destruct (Hin (approvalKey Sample.C Sample.S2) (Success "7"))
      as (amount & Ham & ->); [right; by left|].
    vm_compute in Ham. by injection Ham as <-.
  - rewrite Hout; [vm_compute; reflexivity|].
    vm_compute. intros Hin'. apply list_elem_of_In in Hin'. simpl in Hin'.
    destruct Hin' as [[=]|[[=]|[]]].
Defined.

(** C2.  The zero-address filter only selects the keys of the allowance
    batch; the report is built from every key of the approval map.  On four
    logs, one of them an approval of the zero address, the zero-address
    approval is absent from the batch keys and present in the report. *)
Theorem null_spender_is_reported :
  spenderOf Sample.toNobody = Returned nullAddress
  /\ (validApprovals <$> reconstruct Sample.O Sample.fourLogs)
       = Returned [approvalKey Sample.C Sample.S1; approvalKey Sample.C Sample.S2]
  /\ getApprovals Sample.O None 100 Sample.fourLogs Sample.allowances
       = Returned {| owner := Sample.O;
                     approvals :=
                       [Approval.mk Sample.C Sample.S1 "50" None (Some true);
                        Approval.mk Sample.C Sample.S2 "9" (Some "7") None;
                        Approval.mk Sample.C nullAddress "1" None None] |}.
Proof. split_and!; vm_compute; reflexivity. Qed.

(** ** Big numbers *)

Lemma BN10_toString10 n : BN10 (toString10 n) = Returned n.
Proof.
  unfold BN10, toString10. rewrite NilZero.usu.
  - by rewrite DecimalN.Unsigned.of_to.
  - destruct n as [|p]; [discriminate|]. apply DecimalPos.Unsigned.to_uint_nonnil.
Qed.

Lemma BN_min_spec left right : BN_min left right = N.min left right.
Proof.
  unfold BN_min. destruct (N.ltb_spec left right); [by rewrite N.min_l by lia|].
  by rewrite N.min_r by lia.
Qed.



(** Without a usable balance on record the amount at risk is zero. *)
Lemma amountAtRisk_no_balance (balances : gmap string balanceValue) (a : approval) n :
  BN10 (Approval.amount a) = Returned n ->
  balances !! Approval.contract a = Some Zero \/ balances !! Approval.contract a = None ->
  amountAtRisk balances a = Returned 0%N.
Proof.
  intros Hn Hb. unfold amountAtRisk, balanceOrZero. rewrite Hn. simpl.
  rewrite BN_min_spec. destruct Hb as [-> | ->]; f_equal; lia.
Qed.

(** ** Handlers that store under a slot *)

Section Slots.
Context {Item Result V : Type}.
Variable slot : Item -> string.
Variable value : response Result -> V.

Abbreviation stored :=
  (foldl (fun (s : gmap string V) (ir : Item * response Result) =>
            <[slot ir.1 := value ir.2]> s)).

(** A slot holds what the last answer written to it stored. *)
Lemma stored_agree (schedule : list (Item * response Result)) m c v :
  (forall i r, (i, r) ∈ schedule -> slot i = c -> value r = v) ->
  (exists i r, (i, r) ∈ schedule /\ slot i = c) ->
  stored m schedule !! c = Some v.
Proof.
  induction schedule as [|[i r] schedule IH] using rev_ind; intros Hall Hex.
  - destruct Hex as (i & r & Hin & _). by apply elem_of_nil in Hin.
  - rewrite foldl_app. simpl. destruct (decide (slot i = c)) as [<-|Hne].
    + rewrite lookup_insert_eq. f_equal. apply (Hall i r); [|done].
      apply elem_of_app. right. by left.
    + rewrite lookup_insert_ne by done. apply IH.
      * intros i' r' Hin. apply (Hall i' r'). apply elem_of_app. by left.
      * destruct Hex as (i' & r' & [Hin|Hin]%elem_of_app & Hslot); [eauto|].
        apply list_elem_of_singleton in Hin as [= -> ->]. done.
Qed.

Lemma stored_untouched (schedule : list (Item * response Result)) m c :
  (forall i r, (i, r) ∈ schedule -> slot i <> c) ->
  stored m schedule !! c = m !! c.
Proof.
  induction schedule as [|[i r] schedule IH] using rev_ind; intros Hall; [done|].
  rewrite foldl_app. simpl. rewrite lookup_insert_ne.
  - apply IH. intros i' r' Hin. apply (Hall i' r'). apply elem_of_app. by left.
  - apply (Hall i r). apply elem_of_app. right. by left.
Qed.

(** With one answer per slot the slot holds that answer. *)
Lemma stored_unique (schedule : list (Item * response Result)) m i r :
  NoDup (slot <$> schedule.*1) ->
  (i, r) ∈ schedule ->
  stored m schedule !! slot i = Some (value r).
Proof.
  intros Hnd Hin. apply stored_agree; [|eauto].
  intros i' r' Hin' Hslot. f_equal.
  apply list_elem_of_lookup in Hin as [n Hn].
  apply list_elem_of_lookup in Hin' as [n' Hn'].
  assert (n' = n) as ->; [|congruence].
  eapply NoDup_lookup; [exact Hnd| |]; rewrite !list_lookup_fmap.
  - by rewrite Hn'.
  - rewrite Hn. simpl. by rewrite Hslot.
Qed.
End Slots.

Lemma newSet_elem_of l x : x ∈ newSet l <-> x ∈ l.
Proof.
  induction l as [|y l IH]; simpl; [done|].
  rewrite !elem_of_cons, list_elem_of_filter, IH.
  destruct (decide (x = y)) as [->|Hne]; [tauto|]. tauto.
Qed.

Lemma newSet_NoDup l : NoDup (newSet l).
Proof.
  induction l as [|y l IH]; simpl; [constructor|].
  apply NoDup_cons. split.
  - rewrite list_elem_of_filter. by intros [Hne _].
  - by apply NoDup_filter.
Qed.

(** ** The decimals pass and the quote request *)

Lemma mapM_Returned_Forall {A B} (f : A -> outcome B) (l : list A) :
  Forall (fun x => exists y, f x = Returned y) l ->
  exists ys, mapM f l = Returned ys.
Proof.
  induction 1 as [|x l [y Hy] _ [ys IH]]; simpl; [by eexists|].
  rewrite Hy. simpl. rewrite IH. simpl. by eexists.
Qed.


Lemma mapM_Returned_inv {A B} (f : A -> outcome B) (l : list A) ys y :
  mapM f l = Returned ys -> y ∈ ys -> exists x, x ∈ l /\ f x = Returned y.
Proof.
  revert ys. induction l as [|x' l IH]; intros ys Hys Hy; simpl in Hys.
  - injection Hys as <-. by apply elem_of_nil in Hy.
  - apply bind_Returned in Hys as (y' & Hy' & Hys).
    apply bind_Returned in Hys as (ys' & Hys' & Hys). simpl in Hys.
    injection Hys as <-.
    apply elem_of_cons in Hy as [->|Hy].
    + exists x'. split; [by left|done].
    + destruct (IH _ Hys' Hy) as (x & Hx & Hfx). exists x. split; [by right|done].
Qed.

(** What the decimals pass leaves in [decimalsMap] for an answered contract. *)
Lemma decimals_recorded (tokenAddresses : list string)
  (decimalsAnswers : list (string * response string)) t r :
  NoDup tokenAddresses ->
  decimalsAnswers.*1 ≡ₚ tokenAddresses ->
  (t, r) ∈ decimalsAnswers ->
  foldl (fun s ir => handleDecimals ir.1 ir.2 s) ∅ decimalsAnswers !! t
  = Some match r with Failure _ => "18" | Success decimals => decimals end.
Proof.
  intros Hnd Hperm Hin.
  apply (stored_unique id
           (fun r : response string =>
              match r with Failure _ => "18" | Success decimals => decimals end));
    [|done].
  by rewrite list_fmap_id, Hperm.
Qed.

(** With numerals recorded for every contract, every quote request of the
    exchange-rate batch can be built. *)
Lemma quote_requests_built (blockNumber : N) (tokenAddresses : list string)
  (decimalsAnswers : list (string * response string)) :
  NoDup tokenAddresses ->
  decimalsAnswers.*1 ≡ₚ tokenAddresses ->
  (forall t d, (t, Success d) ∈ decimalsAnswers -> exists n, BN10 d = Returned n) ->
  exists reqs,
    mapM (exchangeRateRequest blockNumber
            (foldl (fun s ir => handleDecimals ir.1 ir.2 s) ∅ decimalsAnswers))
         tokenAddresses = Returned reqs.
Proof.
  intros Hnd Hperm Hnumerals.
  apply mapM_Returned_Forall, Forall_forall. intros t Ht.
  rewrite <- Hperm in Ht. apply list_elem_of_fmap in Ht as ([t' r] & -> & Hr).
  unfold exchangeRateRequest. simpl.
  rewrite (decimals_recorded _ _ _ _ Hnd Hperm Hr).
  unfold getTokenWeiExchangeRateRequest. simpl.
  destruct r as [?|d]; simpl; [by eexists|].
  destruct (Hnumerals _ _ Hr) as [n ->]. simpl. by eexists.
Qed.



(** ** Scoring *)

Lemma Number_0 : Number 0 = S754_zero false.
Proof. reflexivity. Qed.

Lemma mul_zero_finite (x y : number) :
  isFinite x = true -> isZero y = true -> isZero (mul x y) = true.
Proof. by destruct x, y. Qed.

Lemma mul_zero_finite_l (x y : number) :
  isZero x = true -> isFinite y = true -> isZero (mul x y) = true.
Proof. by destruct x, y. Qed.

(** An explicit reputation of 0 is replaced by the baseline. *)
Lemma reputation_zero_is_baseline (reputations : gmap string number)
  (verifiedContracts : gset string) (address : string) (r : number) :
  reputations !! address = Some r -> isZero r = true ->
  reputation reputations verifiedContracts address
  = reputation ∅ verifiedContracts address.
Proof.
  intros Hr Hz. unfold reputation. rewrite Hr, lookup_empty.
  by destruct r.
Qed.

Lemma verifyContracts_Returned etherscanApiKey tokenAddresses verified :
  verifyContracts etherscanApiKey tokenAddresses = Returned verified ->
  verified = ∅.
Proof.
  unfold verifyContracts. destruct etherscanApiKey as [key|]; [|by intros [= <-]].
  destruct (decide (key = "")); [by intros [= <-]|].
  by destruct tokenAddresses.
Qed.

(** What [addApprovalRiskScore] computes when it returns. *)
Lemma addApprovalRiskScore_Returned r blockNumber reputations etherscanApiKey
  currentBlock answers out :
  addApprovalRiskScore r blockNumber reputations etherscanApiKey currentBlock answers
    = Returned out ->
  let pinned := pinnedBlock blockNumber currentBlock in
  let tokenAddresses := newSet (Approval.contract <$> approvals r) in
  exists balances decimalsMap exchangeRates scored,
    makeBatchRequestPromise (balanceRequest (owner r) pinned) handleBalance
      (approvals r) ∅ (balanceAnswers answers) = Returned balances
    /\ makeBatchRequestPromise (decimalsRequest pinned) handleDecimals
         tokenAddresses ∅ (decimalsAnswers answers) = Returned decimalsMap
    /\ makeBatchRequestPromise (exchangeRateRequest pinned decimalsMap) handleRates
         tokenAddresses ∅ (rateAnswers answers) = Returned exchangeRates
    /\ mapM (score (default ∅ reputations) ∅ exchangeRates balances) (approvals r)
       = Returned scored
    /\ out = {| scored_owner := owner r; scored_approvals := scored |}.
Proof.
  unfold addApprovalRiskScore. cbv zeta.
  intros (balances & Hb & H)%bind_Returned.
  apply bind_Returned in H as (decimalsMap & Hd & H).
  apply bind_Returned in H as (exchangeRates & Hr & H).
  apply bind_Returned in H as (verified & Hv & H).
  apply bind_Returned in H as (scored & Hs & H).
  apply verifyContracts_Returned in Hv as ->.
  simpl in H. injection H as <-.
  exists balances, decimalsMap, exchangeRates, scored. done.
Qed.

(** With every batch answered once per item, numerals where numbers are
    parsed and no Etherscan key, scoring a non-empty report returns. *)
Lemma addApprovalRiskScore_returns r blockNumber reputations currentBlock answers :
  let tokenAddresses := newSet (Approval.contract <$> approvals r) in
  approvals r <> [] ->
  (balanceAnswers answers).*1 ≡ₚ approvals r ->
  (decimalsAnswers answers).*1 ≡ₚ tokenAddresses ->
  (rateAnswers answers).*1 ≡ₚ tokenAddresses ->
  (forall t d, (t, Success d) ∈ decimalsAnswers answers ->
               exists n, BN10 d = Returned n) ->
  Forall (fun a => exists n, BN10 (Approval.amount a) = Returned n) (approvals r) ->
  exists out,
    addApprovalRiskScore r blockNumber reputations None currentBlock answers
    = Returned out.
Proof.
  intros tokenAddresses Hne Hb Hd Hr Hnumerals Hamounts.
  pose proof (newSet_NoDup (Approval.contract <$> approvals r)) as Hnd.
  fold tokenAddresses in Hnd.
  assert (Htokens : tokenAddresses <> []).
  { subst tokenAddresses. destruct (approvals r) as [|a l]; [done|].
    simpl. discriminate. }
  unfold addApprovalRiskScore. cbv zeta. fold tokenAddresses.
  rewrite (makeBatchRequestPromise_answered (balanceRequest _ _) handleBalance);
    [|apply mapM_Returned; intros a; eexists; reflexivity|done|done].
  simpl.
  rewrite (makeBatchRequestPromise_answered (decimalsRequest _) handleDecimals);
    [|apply mapM_Returned; intros t; eexists; reflexivity|done|done].
  simpl.
  rewrite (makeBatchRequestPromise_answered (exchangeRateRequest _ _) handleRates);
    [|by apply quote_requests_built|done|done].
  simpl.
  match goal with
  | |- exists out, mapM ?f ?l ≫= _ = _ =>
      destruct (mapM_Returned_Forall f l) as [scored Hscored]
  end.
  { eapply Forall_impl; [exact Hamounts|]. intros a [n Hn].
    unfold score, getRiskScore, amountAtRisk. rewrite Hn. simpl. by eexists. }
  rewrite Hscored. simpl. by eexists.
Qed.

Lemma handled_balance_stored owner blockNumber items balances0 schedule balances :
  makeBatchRequestPromise (balanceRequest owner blockNumber) handleBalance
    items balances0 schedule = Returned balances ->
  balances =
    foldl (fun (s : gmap string balanceValue) (ir : approval * response N) =>
             <[Approval.contract ir.1 :=
                 match ir.2 with Failure _ => Zero | Success b => Big b end]> s)
          balances0 schedule.
Proof. by intros [-> _]%makeBatchRequestPromise_Returned. Qed.

(** C8 (as amended).  When [addApprovalRiskScore] returns and every balanceOf
    call issued for a contract failed, each approval of that contract is
    reported with balance 0, its amount at risk is 0 whatever amount was
    approved, its risk is (rate * 0) * likelihood, and that is zero whenever
    the contract's exchange rate and the likelihood are finite numbers. *)
Theorem failed_balance_scores_zero r blockNumber reputations etherscanApiKey
  currentBlock answers out contract :
  addApprovalRiskScore r blockNumber reputations etherscanApiKey currentBlock answers
    = Returned out ->
  (balanceAnswers answers).*1 ≡ₚ approvals r ->
  (forall a answer, (a, answer) ∈ balanceAnswers answers ->
                    Approval.contract a = contract -> exists e, answer = Failure e) ->
  let pinned := pinnedBlock blockNumber currentBlock in
  let tokenAddresses := newSet (Approval.contract <$> approvals r) in
  exists balances decimalsMap exchangeRates,
    makeBatchRequestPromise (balanceRequest (owner r) pinned) handleBalance
      (approvals r) ∅ (balanceAnswers answers) = Returned balances
    /\ makeBatchRequestPromise (decimalsRequest pinned) handleDecimals
         tokenAddresses ∅ (decimalsAnswers answers) = Returned decimalsMap
    /\ makeBatchRequestPromise (exchangeRateRequest pinned decimalsMap) handleRates
         tokenAddresses ∅ (rateAnswers answers) = Returned exchangeRates
    /\ forall s, s ∈ scored_approvals out ->
         Approval.contract (Scored.approval s) = contract ->
         let a := Scored.approval s in
         let rate := default NaN (exchangeRates !! contract) in
         let odds := likelihood (default ∅ reputations) ∅ contract (Approval.spender a) in
         a ∈ approvals r
         /\ Scored.balance s = Some Zero
         /\ amountAtRisk balances a = Returned 0%N
         /\ Scored.risk s = mul (mul rate (Number 0)) odds
         /\ (isFinite rate = true -> isFinite odds = true ->
             isZero (Scored.risk s) = true).
Proof.
  intros Hout Hperm Hfail pinned tokenAddresses.
  apply addApprovalRiskScore_Returned in Hout
    as (balances & decimalsMap & exchangeRates & scored & Hb & Hd & Hr & Hs & ->).
  exists balances, decimalsMap, exchangeRates. split_and!; [done..|].
  intros s Hin Hcontract a rate odds. simpl in Hin.
  destruct (mapM_Returned_inv _ _ _ _ Hs Hin) as (a' & Ha' & Hscore).
  unfold score in Hscore.
  apply bind_Returned in Hscore as (risk & Hrisk & Hscore).
  simpl in Hscore. injection Hscore as <-. simpl in *. subst a.
  assert (Hzero : balances !! contract = Some Zero).
  { rewrite (handled_balance_stored _ _ _ _ _ _ Hb).
    apply (stored_agree Approval.contract
             (fun r0 : response N => match r0 with Failure _ => Zero | Success b => Big b end)).
    - intros i r0 Hi Hc. by destruct (Hfail _ _ Hi Hc) as [e ->].
    - rewrite <- Hperm in Ha'. apply list_elem_of_fmap in Ha' as ([i r0] & -> & Hi).
      by exists i, r0. }
  unfold getRiskScore in Hrisk.
  apply bind_Returned in Hrisk as (atRisk & HatRisk & Hrisk).
  simpl in Hrisk. injection Hrisk as <-.
  assert (Hrisk0 : amountAtRisk balances a' = Returned 0%N).
  { unfold amountAtRisk in HatRisk.
    apply bind_Returned in HatRisk as (n & Hn & _).
    apply (amountAtRisk_no_balance _ _ n Hn). left. by rewrite Hcontract. }
  rewrite Hrisk0 in HatRisk. injection HatRisk as <-.
  rewrite Hcontract. split_and!; [done|done|done|done|].
  intros Hrate Hodds. unfold severity. fold rate. fold odds.
  apply mul_zero_finite_l; [|done]. by apply mul_zero_finite.
Qed.

Lemma failed_balance_scores_zero_witness :
  addApprovalRiskScore Sample.one (Some 100%N) None None 100 Sample.noBalance
    = Returned Sample.noBalanceReport
  /\ (balanceAnswers Sample.noBalance).*1 ≡ₚ approvals Sample.one
  /\ (forall a answer, (a, answer) ∈ balanceAnswers Sample.noBalance ->
                       Approval.contract a = Sample.C -> exists e, answer = Failure e)
  /\ forall s, s ∈ scored_approvals Sample.noBalanceReport ->
       Scored.balance s = Some Zero
       /\ isZero (Scored.risk s) = true.
Proof.
  assert (Hout : addApprovalRiskScore Sample.one (Some 100%N) None None 100
                   Sample.noBalance = Returned Sample.noBalanceReport)
    by (vm_compute; reflexivity).
  assert (Hperm : (balanceAnswers Sample.noBalance).*1 ≡ₚ approvals Sample.one)
    by reflexivity.
  assert (Hfail : forall a answer, (a, answer) ∈ balanceAnswers Sample.noBalance ->
                    Approval.contract a = Sample.C -> exists e, answer = Failure e).
  { intros a answer Hin _. apply list_elem_of_In in Hin. simpl in Hin.
    destruct Hin as [[= <- <-]|[]]. by eexists. }
  split_and!; [exact Hout|exact Hperm|exact Hfail|].
  destruct (failed_balance_scores_zero _ _ _ _ _ _ _ Sample.C Hout Hperm Hfail)
    as (balances & decimalsMap & exchangeRates & _ & Hd & Hr & Hscored).
  intros s Hs.
  assert (Hc : Approval.contract (Scored.approval s) = Sample.C).
  { apply list_elem_of_In in Hs. simpl in Hs. by destruct Hs as [<-|[]]. }
  destruct (Hscored s Hs Hc) as (_ & Hbalance & _ & _ & Hzero).
  split; [exact Hbalance|]. apply Hzero.
  - vm_compute in Hd. injection Hd as <-.
    vm_compute in Hr. injection Hr as <-. vm_compute. reflexivity.
  - apply list_elem_of_In in Hs. simpl in Hs. destruct Hs as [<-|[]].
    vm_compute. reflexivity.
Defined.

(** C8, as stated, fails: with a spender of infinite reputation (which the
    documentation of the reputations map allows) a failed balance lookup
    yields the risk NaN, not 0. *)
Lemma failed_balance_nan_risk :
  addApprovalRiskScore Sample.one (Some 100%N) (Some {[ Sample.S1 := Infinity ]})
    None 100 Sample.noBalance
    = Returned {| scored_owner := Sample.O;
                  scored_approvals := [Scored.mk Sample.a1 NaN (Some Zero)] |}
  /\ isZero NaN = false.
Proof. split; vm_compute; reflexivity. Qed.

(** C3.  [reputations[address] || baseline] discards an explicit reputation
    of 0: with the contract's reputation set to 0, balance 5, approved amount
    5 and a rate of 2, the risk is 10, the same as with no reputations at
    all. *)
Theorem zero_reputation_is_ignored :
  addApprovalRiskScore Sample.one (Some 100%N) (Some {[ Sample.C := Number 0 ]})
    None 100 Sample.allFine
    = Returned {| scored_owner := Sample.O;
                  scored_approvals :=
                    [Scored.mk Sample.a1 (Number 10) (Some (Big 5))] |}
  /\ isZero (Number 10) = false
  /\ addApprovalRiskScore Sample.one (Some 100%N) (Some {[ Sample.C := Number 0 ]})
       None 100 Sample.allFine
     = addApprovalRiskScore Sample.one (Some 100%N) None None 100 Sample.allFine.
Proof. split_and!; vm_compute; reflexivity. Qed.

(** ** Which slot a handler writes *)

Lemma handleBalance_slot (a : approval) r (balances : gmap string balanceValue) k :
  k <> Approval.contract a ->
  handleBalance a r balances !! k = balances !! k.
Proof. intros Hk. unfold handleBalance. by rewrite lookup_insert_ne. Qed.

Lemma handleDecimals_slot tokenAddress r (decimalsMap : gmap string string) k :
  k <> tokenAddress -> handleDecimals tokenAddress r decimalsMap !! k = decimalsMap !! k.
Proof. intros Hk. unfold handleDecimals. by rewrite lookup_insert_ne. Qed.

Lemma handleRates_slot tokenAddress r (exchangeRates : gmap string number) k :
  k <> tokenAddress -> handleRates tokenAddress r exchangeRates !! k = exchangeRates !! k.
Proof. intros Hk. unfold handleRates. by rewrite lookup_insert_ne. Qed.

Lemma handleAllowance_slot key r (m : approvalMap) k :
  k <> key -> handleAllowance key r m !! k = m !! k.
Proof. intros Hk. rewrite handleAllowance_lookup. by rewrite decide_False. Qed.

(** The items of the allowance, decimals and exchange-rate batches are
    pairwise distinct keys, and each handler writes under its item. *)
Lemma token_passes_disjoint (approvals : list approval) :
  NoDup (newSet (Approval.contract <$> approvals)).
Proof. apply newSet_NoDup. Qed.

(** C9.  The balance batch has one item per approval and its handler writes
    [balances[approval.contract]]: two approvals of one contract write the
    same slot, and with one call failing and one succeeding the balance left
    in the slot depends on which callback ran last. *)
Theorem balance_handlers_share_slot :
  Sample.a1 <> Sample.a2
  /\ Approval.contract Sample.a1 = Approval.contract Sample.a2
  /\ makeBatchRequestPromise (balanceRequest Sample.O 100) handleBalance
       (approvals Sample.two) ∅
       [(Sample.a1, Failure "timeout"); (Sample.a2, Success 7%N)]
     = Returned {[ Sample.C := Big 7 ]}
  /\ makeBatchRequestPromise (balanceRequest Sample.O 100) handleBalance
       (approvals Sample.two) ∅
       [(Sample.a2, Success 7%N); (Sample.a1, Failure "timeout")]
     = Returned {[ Sample.C := Zero ]}.
Proof. split_and!; [discriminate|reflexivity|vm_compute; reflexivity..]. Qed.

(** ** Logs at one position *)

#[local] Arguments compareNumberKeys : simpl never.

Lemma samePosition_not_before a b : samePosition a b -> ~ before a b.
Proof. unfold samePosition, before. lia. Qed.

Lemma samePosition_before_r x b y : samePosition x b -> before x y -> before b y.
Proof. unfold samePosition, before. lia. Qed.

Lemma samePosition_before_l x b y : samePosition x b -> before y x -> before y b.
Proof. unfold samePosition, before. lia. Qed.

(** Inserting a log into a sorted list that holds a log of the same position
    reaches the comparison of the two and throws. *)
Lemma sort_insert_tie x sorted b :
  StronglySorted before sorted -> b ∈ sorted -> samePosition x b ->
  sort_insert (compareNumberKeys positionKeys) x sorted
    = Thrown (ReferenceError "result").
Proof.
  induction sorted as [|y rest IH]; intros Hsorted Hb Hsame.
  - by apply elem_of_nil in Hb.
  - apply StronglySorted_cons in Hsorted as [Hy Hrest]. simpl.
    pose proof (compare_position_spec x y) as Hspec.
    destruct (compareNumberKeys positionKeys x y) as [c|e|]; simpl.
    + apply elem_of_cons in Hb as [->|Hb].
      * exfalso. destruct Hspec as [[_ Hxy]|[_ Hyx]].
        -- by apply (samePosition_not_before _ _ Hsame).
        -- apply (before_irrefl y). by apply (samePosition_before_l x).
      * rewrite Forall_forall in Hy. specialize (Hy _ Hb).
        destruct Hspec as [[_ Hxy]|[Hc _]].
        -- exfalso. apply (samePosition_not_before _ _ Hsame). by transitivity y.
        -- destruct (Z.leb_spec c 0); [lia|]. by rewrite IH.
    + by destruct Hspec as [-> _].
    + done.
Qed.

Lemma sort_insert_cases x sorted :
  match sort_insert (compareNumberKeys positionKeys) x sorted with
  | Returned _ => True
  | Thrown e => e = ReferenceError "result"
  | Pending => False
  end.
Proof.
  induction sorted as [|y rest IH]; simpl; [done|].
  pose proof (compare_position_spec x y) as Hspec.
  destruct (compareNumberKeys positionKeys x y) as [c|e|]; simpl; [|tauto|done].
  destruct (c <=? 0); [done|].
  by destruct (sort_insert (compareNumberKeys positionKeys) x rest).
Qed.

Lemma sort_position_cases l :
  match sort (compareNumberKeys positionKeys) l with
  | Returned sorted => sorted ≡ₚ l /\ StronglySorted before sorted
  | Thrown e => e = ReferenceError "result"
  | Pending => False
  end.
Proof.
  induction l as [|x l IH]; simpl; [split; [done|constructor]|].
  destruct (sort (compareNumberKeys positionKeys) l) as [sorted|e|] eqn:Hl; simpl;
    [|done|done].
  destruct IH as [Hperm Hsorted].
  pose proof (sort_insert_cases x sorted) as Hcases.
  destruct (sort_insert (compareNumberKeys positionKeys) x sorted) as [out|e|] eqn:Hins;
    [|done|done].
  eapply (sort_insert_sorted _ before) in Hins as [Hperm' Hsorted']; [| | |done].
  - split; [|done]. by rewrite Hperm', Hperm.
  - intros a b c Hc Hle. pose proof (compare_position_spec a b) as Hs.
    rewrite Hc in Hs. destruct Hs as [[_ ?]|[? _]]; [done|lia].
  - intros a b c Hc Hlt. pose proof (compare_position_spec a b) as Hs.
    rewrite Hc in Hs. destruct Hs as [[? _]|[_ ?]]; [lia|done].
Qed.

(** Sorting a list that holds two logs of the same position throws. *)
Lemma sort_tie_aborts pre a mid b post :
  samePosition a b ->
  sort (compareNumberKeys positionKeys) (pre ++ a :: mid ++ b :: post)
    = Thrown (ReferenceError "result").
Proof.
  intros Hsame. induction pre as [|x pre IH]; simpl.
  - pose proof (sort_position_cases (mid ++ b :: post)) as Hcases.
    destruct (sort (compareNumberKeys positionKeys) (mid ++ b :: post))
      as [sorted|e|]; simpl; [|by subst|done].
    destruct Hcases as [Hperm Hsorted].
    apply (sort_insert_tie _ _ b); [done| |done].
    rewrite Hperm. apply elem_of_app. right. by left.
  - by rewrite IH.
Qed.

(** C10.  Two log entries that agree on blockNumber, transactionIndex and
    logIndex make the comparator throw a ReferenceError (it has no value to
    return after the loop) instead of returning 0, and [getApprovals] on any
    list that contains two such entries aborts with that error. *)
Theorem identical_positions_abort (address : string) (blockNumber : option N)
  (currentBlock : N) (pre mid post : list log) (a : log)
  (contractAddress : string) (topics : list string) (data : string)
  (allowances : list (string * response string)) :
  let b := Log.mk contractAddress topics data
             (Log.blockNumber a) (Log.transactionIndex a) (Log.logIndex a) in
  compareNumberKeys [Log.blockNumber; Log.transactionIndex; Log.logIndex] a b
    = Thrown (ReferenceError "result")
  /\ getApprovals address blockNumber currentBlock
       (pre ++ a :: mid ++ b :: post) allowances
     = Thrown (ReferenceError "result").
Proof.
  intros b. split.
  - apply compareNumberKeys_equal. by repeat constructor.
  - unfold getApprovals, reconstruct. fold positionKeys.
    rewrite sort_tie_aborts; [done|]. by repeat split.
Qed.

(** ** Reconstruction goes through on well-formed logs *)

Lemma sort_returns l :
  (forall i j a b, l !! i = Some a -> l !! j = Some b -> i <> j ->
                   ~ samePosition a b) ->
  exists sorted, sort (compareNumberKeys positionKeys) l = Returned sorted.
Proof.
  induction l as [|x l IH]; intros Hdistinct; simpl; [by eexists|].
  destruct IH as [sorted Hsorted].
  { intros i j a b Hi Hj Hij. apply (Hdistinct (S i) (S j)); [done|done|lia]. }
  rewrite Hsorted. simpl.
  pose proof (sort_position_cases l) as Hcases. rewrite Hsorted in Hcases.
  destruct Hcases as [Hperm _].
  apply sort_insert_returns. apply Forall_forall. intros y Hy.
  rewrite Hperm in Hy. apply list_elem_of_lookup in Hy as [j Hj].
  pose proof (compare_position_spec x y) as Hspec.
  destruct (compareNumberKeys positionKeys x y) as [c|e|]; [by eexists| |done].
  destruct Hspec as [_ Hsame]. exfalso.
  by apply (Hdistinct 0%nat (S j) x y).
Qed.

Lemma forEach_recordApproval_returns addressLower logs m0 :
  Forall (fun l => exists m, recordApproval addressLower l ∅ = Returned m) logs ->
  exists m, forEach (recordApproval addressLower) logs m0 = Returned m.
Proof.
  intros Hlogs. revert m0. induction Hlogs as [|l logs [m Hl] _ IH]; intros m0; simpl.
  - by eexists.
  - apply recordApproval_Returned in Hl as (spender & amount & H0 & H1 & H2 & H3 & _).
    assert (Hl0 : recordApproval addressLower l m0
                  = Returned (<[approvalKey (Log.address l) spender :=
                                  Entry.mk amount None None]> m0)).
    { apply recordApproval_Returned. by exists spender, amount. }
    rewrite Hl0. simpl. apply IH.
Qed.

(** Logs at pairwise different positions, each of which decodes as an
    approval of the queried owner, are reconstructed without error. *)
Lemma reconstruct_returns address pastLogs :
  (forall i j a b, pastLogs !! i = Some a -> pastLogs !! j = Some b -> i <> j ->
                   ~ samePosition a b) ->
  Forall (fun l => exists m, recordApproval (toLowerCase address) l ∅ = Returned m)
         pastLogs ->
  exists m, reconstruct address pastLogs = Returned m.
Proof.
  intros Hdistinct Hlogs. unfold reconstruct. fold positionKeys.
  destruct (sort_returns _ Hdistinct) as [sorted Hsorted].
  rewrite Hsorted. simpl.
  apply forEach_recordApproval_returns.
  pose proof (sort_position_cases pastLogs) as Hcases. rewrite Hsorted in Hcases.
  destruct Hcases as [Hperm _]. by rewrite Hperm.
Qed.

(** Every key of the approval map, whatever its spender, is turned into a
    record of the report. *)
Lemma getApprovals_reports_every_key address blockNumber currentBlock pastLogs
  allowances m r key :
  reconstruct address pastLogs = Returned m ->
  getApprovals address blockNumber currentBlock pastLogs allowances = Returned r ->
  is_Some (m !! key) ->
  exists data, approvalOf key data ∈ approvals r.
Proof.
  intros Hm Hr [e He]. unfold getApprovals in Hr. rewrite Hm in Hr. simpl in Hr.
  apply bind_Returned in Hr as (m' & Hm' & Hr). simpl in Hr. injection Hr as <-.
  apply makeBatchRequestPromise_Returned in Hm' as [-> _].
  assert (Hdom : forall schedule (m0 : approvalMap),
            is_Some (m0 !! key) ->
            is_Some (foldl (fun s ir => handleAllowance ir.1 ir.2 s) m0 schedule !! key)).
  { induction schedule as [|[k r0] schedule IH]; intros m0 Hm0; simpl; [done|].
    apply IH. rewrite handleAllowance_lookup.
    case_decide; [|done]. destruct r0; by apply fmap_is_Some. }
  destruct (Hdom allowances m) as [e' He']; [by eexists|].
  exists e'. simpl. apply list_elem_of_fmap. exists (key, e'). split; [done|].
  by apply elem_of_map_to_list.
Qed.

(** * Further properties of the code *)

(** ** The comparator *)

Lemma compareNumberKeys_cons {A : Type} (key : A -> Z) (keys : list (A -> Z))
  (a b : A) :
  compareNumberKeys (key :: keys) a b =
    if negb (key a - key b =? 0) then Returned (key a - key b)
    else compareNumberKeys keys a b.
Proof. reflexivity. Qed.

(** Swapping the arguments of the comparator negates its result and keeps its
    exception. *)
Theorem compareNumberKeys_swap {A : Type} (keys : list (A -> Z)) (a b : A) :
  compareNumberKeys keys b a = Z.opp <$> compareNumberKeys keys a b.
Proof.
  induction keys as [|key keys IH]; [done|].
  rewrite !compareNumberKeys_cons.
  destruct (Z.eqb_spec (key a - key b) 0) as [Hab|Hab];
    destruct (Z.eqb_spec (key b - key a) 0) as [Hba|Hba]; try lia; simpl.
  - exact IH.
  - f_equal. lia.
Qed.

(** The comparator returns the difference on the first key the two entries
    differ on. *)
Theorem compareNumberKeys_first_difference {A : Type}
  (equalKeys : list (A -> Z)) (key : A -> Z) (rest : list (A -> Z)) (a b : A) :
  Forall (fun k => k a = k b) equalKeys ->
  key a <> key b ->
  compareNumberKeys (equalKeys ++ key :: rest) a b = Returned (key a - key b).
Proof.
  intros Hequal Hkey. induction Hequal as [|k ks Hk _ IH]; cbn [app];
    rewrite compareNumberKeys_cons.
  - destruct (Z.eqb_spec (key a - key b) 0); [lia|done].
  - rewrite Hk, Z.sub_diag. exact IH.
Qed.

Lemma compareNumberKeys_first_difference_witness :
  Forall (fun k => k Sample.first = k Sample.second)
         [Log.transactionIndex; Log.logIndex]
  /\ Log.blockNumber Sample.first <> Log.blockNumber Sample.second
  /\ compareNumberKeys [Log.transactionIndex; Log.logIndex; Log.blockNumber]
       Sample.first Sample.second = Returned (-10).
Proof.
  assert (H1 : Forall (fun k => k Sample.first = k Sample.second)
                      [Log.transactionIndex; Log.logIndex])
    by (repeat constructor).
  assert (H2 : Log.blockNumber Sample.first <> Log.blockNumber Sample.second)
    by (vm_compute; discriminate).
  split_and!; [exact H1|exact H2|].
  exact (compareNumberKeys_first_difference
           [Log.transactionIndex; Log.logIndex] Log.blockNumber []
           Sample.first Sample.second H1 H2).
Defined.

(** On the keys [getApprovals] sorts by, the comparator is negative exactly
    when the first log precedes the second in chain order, positive exactly
    when it follows, and throws exactly when the two share a position. *)
Theorem comparator_follows_chain_order (a b : log) :
  let compare := compareNumberKeys
                   [Log.blockNumber; Log.transactionIndex; Log.logIndex] in
  (before a b <-> exists c, compare a b = Returned c /\ c < 0)
  /\ (before b a <-> exists c, compare a b = Returned c /\ 0 < c)
  /\ (samePosition a b <-> compare a b = Thrown (ReferenceError "result")).
Proof.
  intros compare. subst compare. fold positionKeys.
  pose proof (compare_position_spec a b) as Hspec.
  destruct (compareNumberKeys positionKeys a b) as [c|e|]; [| |done].
  - split_and!.
    + split.
      * intros Hab. destruct Hspec as [[Hc _]|[_ Hba]]; [by exists c|].
        by destruct (before_asym _ _ Hab).
      * intros (c' & [= <-] & Hc). destruct Hspec as [[_ ?]|[? _]]; [done|lia].
    + split.
      * intros Hba. destruct Hspec as [[_ Hab]|[Hc _]]; [|by exists c].
        by destruct (before_asym _ _ Hab).
      * intros (c' & [= <-] & Hc). destruct Hspec as [[? _]|[_ ?]]; [lia|done].
    + split; [|done]. intros Hsame. exfalso.
      destruct Hspec as [[_ Hab]|[_ Hba]].
      * by apply (samePosition_not_before a b).
      * apply (before_irrefl b). by apply (samePosition_before_l a).
  - destruct Hspec as [-> Hsame]. split_and!.
    + split; [|by intros (? & [=] & _)].
      intros Hab. by destruct (samePosition_not_before _ _ Hsame).
    + split; [|by intros (? & [=] & _)].
      intros Hba. exfalso. apply (before_irrefl b).
      by apply (samePosition_before_l a).
    + done.
Qed.

(** ** Topics and addresses *)

(** Un-padding the 32-byte topic that [padLeft(address, 64)] builds from a
    40-digit address gives the address back. *)
Theorem unpadAddress_padLeft (digits : string) :
  String.length digits = 40%nat ->
  unpadAddress (padLeft ("0x" +:+ digits) 64) = Returned ("0x" +:+ digits).
Proof.
  intros Hlen.
  do 40 (destruct digits as [|? digits]; [discriminate Hlen|]).
  destruct digits; [|discriminate Hlen].
  reflexivity.
Qed.

Lemma unpadAddress_padLeft_witness :
  String.length "224e69025a2f705c8f31efb6694398f8fd09ac5c" = 40%nat
  /\ unpadAddress (padLeft Sample.O 64) = Returned Sample.O.
Proof.
  assert (H : String.length "224e69025a2f705c8f31efb6694398f8fd09ac5c" = 40%nat)
    by reflexivity.
  split; [exact H|].
  exact (unpadAddress_padLeft "224e69025a2f705c8f31efb6694398f8fd09ac5c" H).
Defined.

(** ** Order of the fetched logs *)

#[local] Instance before_antisym : AntiSymm (=) before.
Proof. intros a b Hab Hba. by destruct (before_asym _ _ Hab). Qed.

Lemma two_of_lookup {A} (l : list A) i j a b :
  l !! i = Some a -> l !! j = Some b -> i <> j -> exists k, l ≡ₚ a :: b :: k.
Proof.
  intros Hi Hj Hij. exists (delete (if decide (j < i)%nat then j else pred j) (delete i l)).
  rewrite (delete_Permutation l i a Hi) at 1. apply Permutation_skip.
  apply delete_Permutation. case_decide.
  - by rewrite list_lookup_delete_lt.
  - rewrite list_lookup_delete_ge by lia. by replace (S (pred j)) with j by lia.
Qed.

Lemma tie_shape (l : list log) a b k :
  l ≡ₚ a :: b :: k -> samePosition a b ->
  exists pre x mid y post, l = pre ++ x :: mid ++ y :: post /\ samePosition x y.
Proof.
  intros Hperm Hsame.
  assert (a ∈ l) as (p & q & ->)%list_elem_of_split by (rewrite Hperm; by left).
  symmetry in Hperm. apply Permutation_cons_app_inv in Hperm.
  assert (b ∈ p ++ q) as [Hb|Hb]%elem_of_app by (rewrite <- Hperm; by left).
  - apply list_elem_of_split in Hb as (p1 & p2 & ->).
    exists p1, b, p2, a, q. split; [by rewrite <- app_assoc|].
    unfold samePosition in *. lia.
  - apply list_elem_of_split in Hb as (q1 & q2 & ->).
    by exists p, a, q1, b, q2.
Qed.

Lemma sorted_no_tie (sorted : list log) pre x mid y post :
  StronglySorted before sorted ->
  sorted = pre ++ x :: mid ++ y :: post -> ~ samePosition x y.
Proof.
  intros Hsorted -> Hsame.
  apply StronglySorted_app_1_r in Hsorted.
  apply StronglySorted_cons in Hsorted as [Hx _].
  rewrite Forall_forall in Hx.
  apply (samePosition_not_before x y Hsame), Hx, elem_of_app. right. by left.
Qed.

Lemma sort_returns_perm l1 l2 sorted :
  sort (compareNumberKeys positionKeys) l1 = Returned sorted ->
  l1 ≡ₚ l2 ->
  exists sorted', sort (compareNumberKeys positionKeys) l2 = Returned sorted'.
Proof.
  intros Hsort Hperm.
  pose proof (sort_position_cases l1) as Hcases. rewrite Hsort in Hcases.
  destruct Hcases as [Hp Hsorted].
  apply sort_returns. intros i j a b Hi Hj Hij Hsame.
  destruct (two_of_lookup _ _ _ _ _ Hi Hj Hij) as [k Hk].
  assert (Hsk : sorted ≡ₚ a :: b :: k) by (by rewrite Hp, Hperm).
  destruct (tie_shape _ _ _ _ Hsk Hsame) as (pre & x & mid & y & post & Heq & Hxy).
  by apply (sorted_no_tie _ _ _ _ _ _ Hsorted Heq).
Qed.

Lemma sort_perm l1 l2 :
  l1 ≡ₚ l2 ->
  sort (compareNumberKeys positionKeys) l1 = sort (compareNumberKeys positionKeys) l2.
Proof.
  intros Hperm.
  pose proof (sort_position_cases l1) as H1.
  pose proof (sort_position_cases l2) as H2.
  destruct (sort (compareNumberKeys positionKeys) l1) as [s1|e1|] eqn:E1;
    destruct (sort (compareNumberKeys positionKeys) l2) as [s2|e2|] eqn:E2;
    try done.
  - destruct H1 as [Hp1 Hs1], H2 as [Hp2 Hs2]. f_equal.
    apply (StronglySorted_unique before); [done|done|].
    by rewrite Hp1, Hp2.
  - destruct (sort_returns_perm _ _ _ E1 Hperm) as [s2 Hs2]. congruence.
  - symmetry in Hperm.
    destruct (sort_returns_perm _ _ _ E2 Hperm) as [s1 Hs1]. congruence.
  - by subst.
Qed.

(** Sort-independence: the order in which the chain client delivers the logs
    does not change what [getApprovals] does, be it the report, the error or
    a pending promise. *)
Theorem getApprovals_order_of_logs address blockNumber currentBlock
  (pastLogs pastLogs' : list log) allowances :
  pastLogs ≡ₚ pastLogs' ->
  reconstruct address pastLogs = reconstruct address pastLogs'
  /\ getApprovals address blockNumber currentBlock pastLogs allowances
     = getApprovals address blockNumber currentBlock pastLogs' allowances.
Proof.
  intros Hperm.
  assert (Hr : reconstruct address pastLogs = reconstruct address pastLogs').
  { unfold reconstruct. fold positionKeys. by rewrite (sort_perm _ _ Hperm). }
  split; [exact Hr|]. unfold getApprovals. by rewrite Hr.
Qed.

Lemma getApprovals_order_of_logs_witness :
  [Sample.second; Sample.first] ≡ₚ [Sample.first; Sample.second]
  /\ reconstruct Sample.O [Sample.second; Sample.first]
     = reconstruct Sample.O [Sample.first; Sample.second]
  /\ getApprovals Sample.O None 100 [Sample.second; Sample.first] Sample.allowances
     = getApprovals Sample.O None 100 [Sample.first; Sample.second] Sample.allowances.
Proof.
  assert (H : [Sample.second; Sample.first] ≡ₚ [Sample.first; Sample.second])
    by apply Permutation_swap.
  split; [exact H|].
  exact (getApprovals_order_of_logs Sample.O None 100 _ _ Sample.allowances H).
Defined.

(** ** Validation of the fetched logs *)




(** ** Which approvals get an allowance call *)

(** An approval on record is put into the allowance batch exactly when its
    spender is not the zero address; the approved amount, zero included,
    plays no part. *)
Theorem validApprovals_all_but_null (m : approvalMap) (contractAddress spender : string) :
  dotFree contractAddress = true ->
  dotFree spender = true ->
  approvalKey contractAddress spender ∈ validApprovals m
  <-> is_Some (m !! approvalKey contractAddress spender) /\ spender <> nullAddress.
Proof.
  intros Hc Hs. rewrite elem_of_validApprovals.
  rewrite (split_approvalKey _ _ Hc), (split_dotFree _ Hs). simpl. tauto.
Qed.

Lemma validApprovals_all_but_null_witness :
  dotFree Sample.C = true
  /\ dotFree Sample.S1 = true
  /\ (approvalKey Sample.C Sample.S1 ∈ validApprovals Sample.threeEntries
      <-> is_Some (Sample.threeEntries !! approvalKey Sample.C Sample.S1)
          /\ Sample.S1 <> nullAddress).
Proof.
  assert (H1 : dotFree Sample.C = true) by reflexivity.
  assert (H2 : dotFree Sample.S1 = true) by reflexivity.
  split_and!; [exact H1|exact H2|].
  exact (validApprovals_all_but_null Sample.threeEntries Sample.C Sample.S1 H1 H2).
Defined.

(** When no approval with a non-zero spender is on record, in particular for
    an address without Approval logs, the allowance batch is empty and
    [getApprovals] never returns, whatever the chain client does. *)
Theorem getApprovals_nothing_to_check address blockNumber currentBlock pastLogs
  allowances (m : approvalMap) :
  reconstruct address pastLogs = Returned m ->
  validApprovals m = [] ->
  getApprovals address blockNumber currentBlock pastLogs allowances = Pending.
Proof.
  intros Hm Hvalid. unfold getApprovals. rewrite Hm. simpl. rewrite Hvalid.
  by rewrite makeBatchRequestPromise_nil.
Qed.

Lemma getApprovals_nothing_to_check_witness :
  reconstruct Sample.O [Sample.toNobody] = Returned Sample.nobodyOnly
  /\ validApprovals Sample.nobodyOnly = []
  /\ getApprovals Sample.O None 100 [Sample.toNobody] [] = Pending.
Proof.
  assert (H1 : reconstruct Sample.O [Sample.toNobody] = Returned Sample.nobodyOnly)
    by (vm_compute; reflexivity).
  assert (H2 : validApprovals Sample.nobodyOnly = []) by (vm_compute; reflexivity).
  split_and!; [exact H1|exact H2|].
  exact (getApprovals_nothing_to_check Sample.O None 100 _ [] _ H1 H2).
Defined.

(** ** What the allowance pass leaves alone *)

Lemma handled_allowance_amount schedule (m : approvalMap) key :
  exists f : Entry.t -> Entry.t,
    (forall e, Entry.amount (f e) = Entry.amount e)
    /\ foldl (fun s ir => handleAllowance ir.1 ir.2 s) m schedule !! key
       = f <$> m !! key.
Proof.
  revert m. induction schedule as [|[k r] schedule IH]; intros m; simpl.
  - exists id. split; [done|]. by rewrite option_fmap_id.
  - destruct (IH (handleAllowance k r m)) as (f & Hf & ->).
    rewrite handleAllowance_lookup. case_decide; [|by exists f].
    destruct r as [?|v].
    + exists (f ∘ Entry.setAllowanceError). split.
      * intros e. simpl. by rewrite Hf.
      * by rewrite option_fmap_compose.
    + exists (f ∘ Entry.setAllowance v). split.
      * intros e. simpl. by rewrite Hf.
      * by rewrite option_fmap_compose.
Qed.

Lemma handled_allowance_size schedule (m : approvalMap) :
  size (foldl (fun s ir => handleAllowance ir.1 ir.2 s) m schedule) = size m.
Proof.
  revert m. induction schedule as [|[k r] schedule IH]; intros m; simpl; [done|].
  rewrite IH. rewrite <- !(size_dom (D:=gset string)).
  unfold handleAllowance. destruct r; by rewrite dom_alter_L.
Qed.

Lemma getApprovals_Returned address blockNumber currentBlock pastLogs allowances r :
  getApprovals address blockNumber currentBlock pastLogs allowances = Returned r ->
  exists m : approvalMap,
    reconstruct address pastLogs = Returned m
    /\ r = {| owner := address;
              approvals :=
                (fun kd => approvalOf kd.1 kd.2)
                  <$> map_to_list
                        (foldl (fun s ir => handleAllowance ir.1 ir.2 s) m allowances) |}.
Proof.
  unfold getApprovals. intros (m & Hm & Hr)%bind_Returned.
  apply bind_Returned in Hr as (m' & Hm' & Hr). simpl in Hr. injection Hr as <-.
  apply makeBatchRequestPromise_Returned in Hm' as [-> _]. by exists m.
Qed.

Lemma report_records_entries address blockNumber currentBlock pastLogs
  allowances (m : approvalMap) r :
  reconstruct address pastLogs = Returned m ->
  getApprovals address blockNumber currentBlock pastLogs allowances = Returned r ->
  owner r = address
  /\ length (approvals r) = size m
  /\ forall a, a ∈ approvals r ->
       exists key e,
         m !! key = Some e
         /\ Approval.contract a = js_nth 0 (split "." key)
         /\ Approval.spender a = js_nth 1 (split "." key)
         /\ Approval.amount a = Entry.amount e.
Proof.
  intros Hm (m0 & Hm0 & ->)%getApprovals_Returned.
  rewrite Hm in Hm0. injection Hm0 as <-. simpl. split_and!.
  - done.
  - by rewrite length_fmap, length_map_to_list, handled_allowance_size.
  - intros a ([key e'] & -> & He')%list_elem_of_fmap.
    apply elem_of_map_to_list in He'.
    destruct (handled_allowance_amount allowances m key) as (f & Hf & Hlookup).
    rewrite He' in Hlookup. destruct (m !! key) as [e|] eqn:He; [|done].
    injection Hlookup as ->. exists key, e. simpl. by rewrite Hf.
Qed.

(** The report names the queried address as owner, has one record per entry
    of the approval map, and every record carries the contract and spender
    parts of its key and the amount reconstruction left there: the allowance
    pass adds fields but neither adds, drops nor re-prices an approval. *)
Theorem allowance_pass_keeps_approvals address blockNumber currentBlock pastLogs
  allowances (m : approvalMap) r :
  reconstruct address pastLogs = Returned m ->
  getApprovals address blockNumber currentBlock pastLogs allowances = Returned r ->
  owner r = address
  /\ length (approvals r) = size m
  /\ forall a, a ∈ approvals r ->
       exists key e,
         m !! key = Some e
         /\ Approval.contract a = js_nth 0 (split "." key)
         /\ Approval.spender a = js_nth 1 (split "." key)
         /\ Approval.amount a = Entry.amount e.
Proof. apply report_records_entries. Qed.

Lemma allowance_pass_keeps_approvals_witness :
  reconstruct Sample.O Sample.fourLogs = Returned Sample.threeEntries
  /\ getApprovals Sample.O None 100 Sample.fourLogs Sample.allowances
     = Returned {| owner := Sample.O;
                   approvals :=
                     [Approval.mk Sample.C Sample.S1 "50" None (Some true);
                      Approval.mk Sample.C Sample.S2 "9" (Some "7") None;
                      Approval.mk Sample.C nullAddress "1" None None] |}
  /\ size Sample.threeEntries = 3%nat.
Proof.
  assert (H1 : reconstruct Sample.O Sample.fourLogs = Returned Sample.threeEntries)
    by (vm_compute; reflexivity).
  assert (H2 : getApprovals Sample.O None 100 Sample.fourLogs Sample.allowances
     = Returned {| owner := Sample.O;
                   approvals :=
                     [Approval.mk Sample.C Sample.S1 "50" None (Some true);
                      Approval.mk Sample.C Sample.S2 "9" (Some "7") None;
                      Approval.mk Sample.C nullAddress "1" None None] |})
    by (vm_compute; reflexivity).
  split_and!; [exact H1|exact H2|].
  destruct (allowance_pass_keeps_approvals _ _ _ _ _ _ _ H1 H2) as (_ & Hsize & _).
  symmetry. exact Hsize.
Defined.

(** When no key is answered twice, no record of the report carries both an
    allowance and the allowance-error flag. *)
Theorem allowance_and_error_exclusive address blockNumber currentBlock pastLogs
  allowances r :
  getApprovals address blockNumber currentBlock pastLogs allowances = Returned r ->
  NoDup allowances.*1 ->
  forall a, a ∈ approvals r ->
    Approval.allowance a = None \/ Approval.allowanceError a = None.
Proof.
  intros (m & Hm & ->)%getApprovals_Returned Hnd a.
  simpl. intros ([key e'] & -> & He')%list_elem_of_fmap.
  apply elem_of_map_to_list in He'. simpl.
  destruct (decide (key ∈ allowances.*1)) as [Hin|Hout].
  - apply list_elem_of_fmap in Hin as ([k answer] & -> & Hin). simpl in He'.
    rewrite (handled_allowance_in _ _ _ _ Hnd Hin) in He'.
    destruct (m !! k) as [e|] eqn:He; [|by destruct answer].
    rewrite (reconstruct_fresh _ _ _ _ _ Hm He) in He'.
    destruct answer; injection He' as <-; simpl; auto.
  - rewrite handled_allowance_notin in He' by done.
    rewrite (reconstruct_fresh _ _ _ _ _ Hm He'). simpl. auto.
Qed.

Lemma allowance_and_error_exclusive_witness :
  getApprovals Sample.O None 100 Sample.fourLogs Sample.allowances
    = Returned {| owner := Sample.O;
                  approvals :=
                    [Approval.mk Sample.C Sample.S1 "50" None (Some true);
                     Approval.mk Sample.C Sample.S2 "9" (Some "7") None;
                     Approval.mk Sample.C nullAddress "1" None None] |}
  /\ NoDup Sample.allowances.*1
  /\ (Approval.allowance (Approval.mk Sample.C Sample.S1 "50" None (Some true)) = None
      \/ Approval.allowanceError (Approval.mk Sample.C Sample.S1 "50" None (Some true))
         = None).
Proof.
  assert (H1 : getApprovals Sample.O None 100 Sample.fourLogs Sample.allowances
    = Returned {| owner := Sample.O;
                  approvals :=
                    [Approval.mk Sample.C Sample.S1 "50" None (Some true);
                     Approval.mk Sample.C Sample.S2 "9" (Some "7") None;
                     Approval.mk Sample.C nullAddress "1" None None] |})
    by (vm_compute; reflexivity).
  assert (H2 : NoDup Sample.allowances.*1).
  { apply NoDup_ListNoDup. vm_compute. repeat constructor; simpl; intuition discriminate. }
  split_and!; [exact H1|exact H2|].
  apply (allowance_and_error_exclusive _ _ _ _ _ _ H1 H2). by left.
Defined.

(** The completion order of the allowance callbacks is irrelevant: answering
    the same keys with the same results in another order gives the same
    outcome of [getApprovals]. *)
Theorem allowance_order_irrelevant address blockNumber currentBlock pastLogs
  (allowances allowances' : list (string * response string)) :
  NoDup allowances.*1 ->
  allowances ≡ₚ allowances' ->
  getApprovals address blockNumber currentBlock pastLogs allowances
  = getApprovals address blockNumber currentBlock pastLogs allowances'.
Proof.
  intros Hnd Hperm. unfold getApprovals.
  destruct (reconstruct address pastLogs) as [m| |]; simpl; [|done|done].
  assert (Hnd' : NoDup allowances'.*1) by (by rewrite <- Hperm).
  assert (Hstore : foldl (fun s ir => handleAllowance ir.1 ir.2 s) m allowances
                   = foldl (fun s ir => handleAllowance ir.1 ir.2 s) m allowances').
  { apply map_eq. intros key.
    destruct (decide (key ∈ allowances.*1)) as [Hin|Hout].
    - apply list_elem_of_fmap in Hin as ([k answer] & -> & Hin). simpl.
      rewrite (handled_allowance_in _ _ _ _ Hnd Hin).
      rewrite Hperm in Hin. by rewrite (handled_allowance_in _ _ _ _ Hnd' Hin).
    - rewrite handled_allowance_notin by done.
      rewrite Hperm in Hout. by rewrite handled_allowance_notin. }
  unfold makeBatchRequestPromise, executor.
  destruct (mapM _ _) as [reqs| |]; simpl; [|done|done].
  rewrite !fire_resolved, !fire_store. simpl. rewrite Hstore.
  by rewrite (Permutation_length Hperm).
Qed.

Lemma allowance_order_irrelevant_witness :
  NoDup Sample.allowances.*1
  /\ Sample.allowances ≡ₚ Sample.allowancesSwapped
  /\ getApprovals Sample.O None 100 Sample.fourLogs Sample.allowances
     = getApprovals Sample.O None 100 Sample.fourLogs Sample.allowancesSwapped.
Proof.
  assert (H1 : NoDup Sample.allowances.*1).
  { apply NoDup_ListNoDup. vm_compute. repeat constructor; simpl; intuition discriminate. }
  assert (H2 : Sample.allowances ≡ₚ Sample.allowancesSwapped) by apply Permutation_swap.
  split_and!; [exact H1|exact H2|].
  exact (allowance_order_irrelevant Sample.O None 100 Sample.fourLogs _ _ H1 H2).
Defined.

(** ** The batch coordinator *)

(** While fewer callbacks have fired than there are items, the promise is
    pending: it never resolves on partial results. *)
Theorem batch_waits_for_every_item {Item Request Result Store : Type}
  (getRequest : Item -> outcome Request)
  (handleItem : Item -> response Result -> Store -> Store)
  (items : list Item) (s : Store) (schedule : list (Item * response Result)) :
  (exists reqs, mapM getRequest items = Returned reqs) ->
  (length schedule < length items)%nat ->
  makeBatchRequestPromise getRequest handleItem items s schedule = Pending.
Proof.
  intros [reqs Hreqs] Hlt. unfold makeBatchRequestPromise, executor.
  rewrite Hreqs. simpl. rewrite fire_resolved. simpl.
  destruct (Nat.leb_spec (length items) (length schedule)); [lia|].
  by rewrite andb_false_r.
Qed.

Lemma batch_waits_for_every_item_witness :
  (exists reqs, mapM (allowanceRequest Sample.O 100)
                  (validApprovals Sample.threeEntries) = Returned reqs)
  /\ (length Sample.oneOfTwo < length (validApprovals Sample.threeEntries))%nat
  /\ makeBatchRequestPromise (allowanceRequest Sample.O 100) handleAllowance
       (validApprovals Sample.threeEntries) Sample.threeEntries Sample.oneOfTwo
     = Pending.
Proof.
  assert (H1 : exists reqs, mapM (allowanceRequest Sample.O 100)
                  (validApprovals Sample.threeEntries) = Returned reqs)
    by (eexists; vm_compute; reflexivity).
  assert (H2 : (length Sample.oneOfTwo
                < length (validApprovals Sample.threeEntries))%nat)
    by (vm_compute; lia).
  split_and!; [exact H1|exact H2|].
  exact (batch_waits_for_every_item _ handleAllowance _ Sample.threeEntries
           Sample.oneOfTwo H1 H2).
Defined.

(** If building the request of some item throws, the promise rejects with
    the exception of the first such item, whatever the client would answer. *)
Theorem batch_rejects_when_request_throws {Item Request Result Store : Type}
  (getRequest : Item -> outcome Request)
  (handleItem : Item -> response Result -> Store -> Store)
  (built : list Item) (item : Item) (rest : list Item) (e : error) (s : Store)
  (schedule : list (Item * response Result)) :
  Forall (fun i => exists q, getRequest i = Returned q) built ->
  getRequest item = Thrown e ->
  makeBatchRequestPromise getRequest handleItem (built ++ item :: rest) s schedule
  = Thrown e.
Proof.
  intros Hbuilt Hitem. unfold makeBatchRequestPromise, executor.
  assert (Hm : mapM getRequest (built ++ item :: rest) = Thrown e).
  { induction Hbuilt as [|i built [q Hq] _ IH]; simpl.
    - by rewrite Hitem.
    - rewrite Hq. simpl. by rewrite IH. }
  by rewrite Hm.
Qed.

Lemma batch_rejects_when_request_throws_witness :
  Forall (fun i => exists q, exchangeRateRequest 100 {[ Sample.C := "18" ]} i
                             = Returned q) [Sample.C]
  /\ exchangeRateRequest 100 {[ Sample.C := "18" ]} Sample.C2
     = Thrown (TypeError "Cannot read properties of undefined")
  /\ makeBatchRequestPromise (exchangeRateRequest 100 {[ Sample.C := "18" ]})
       handleRates ([Sample.C] ++ Sample.C2 :: []) ∅ []
     = Thrown (TypeError "Cannot read properties of undefined").
Proof.
  assert (H1 : Forall (fun i => exists q,
                         exchangeRateRequest 100 {[ Sample.C := "18" ]} i
                         = Returned q) [Sample.C]).
  { constructor; [|constructor]. eexists. vm_compute. reflexivity. }
  assert (H2 : exchangeRateRequest 100 {[ Sample.C := "18" ]} Sample.C2
               = Thrown (TypeError "Cannot read properties of undefined"))
    by (vm_compute; reflexivity).
  split_and!; [exact H1|exact H2|].
  exact (batch_rejects_when_request_throws _ handleRates [Sample.C] Sample.C2 []
           _ ∅ [] H1 H2).
Defined.

Lemma mapM_Returned_Forall2 {A B} (f : A -> outcome B) (l : list A) ys :
  mapM f l = Returned ys -> Forall2 (fun x y => f x = Returned y) l ys.
Proof.
  revert ys. induction l as [|x l IH]; intros ys Hys; simpl in Hys.
  - injection Hys as <-. constructor.
  - apply bind_Returned in Hys as (y & Hy & Hys).
    apply bind_Returned in Hys as (ys' & Hys' & Hys). simpl in Hys.
    injection Hys as <-. constructor; [done|]. by apply IH.
Qed.



(** ** The quote request *)


(** ** Amounts as decimal text *)

(** Every amount in the report of [getApprovals] is the decimal text of the
    data word of one of the fetched logs, and [new BN(amount, 10)] reads that
    same number back: scoring can parse every approval it is handed. *)
Theorem reported_amounts_parse_back address blockNumber currentBlock pastLogs
  allowances r :
  getApprovals address blockNumber currentBlock pastLogs allowances = Returned r ->
  forall a, a ∈ approvals r ->
    exists l n,
      l ∈ pastLogs
      /\ toBN (Log.data l) = Returned n
      /\ Approval.amount a = toString10 n
      /\ BN10 (Approval.amount a) = Returned n.
Proof.
  intros Hr a Ha.
  destruct (getApprovals_Returned _ _ _ _ _ _ Hr) as (m & Hm & _).
  destruct (report_records_entries _ _ _ _ _ _ _ Hm Hr) as (_ & _ & Hkeep).
  destruct (Hkeep a Ha) as (key & e & He & _ & _ & Hamount).
  apply reconstruct_Returned in Hm as (sorted & Hperm & Hsorted & Hrun).
  destruct (forEach_recordApproval_latest _ _ _ Hsorted Hrun) as [Hdom Hlatest].
  destruct (proj1 (Hdom key)) as (l & Hl & Hkl); [by eexists|].
  destruct (Hlatest l Hl)
    as (latest & key' & amount & Hin & Hkl' & _ & Ham & _ & Hlookup).
  rewrite Hkl in Hkl'. injection Hkl' as <-.
  rewrite He in Hlookup. injection Hlookup as ->. simpl in Hamount.
  unfold amountOf in Ham. apply fmap_Returned in Ham as (n & Hn & ->).
  exists latest, n. rewrite <- Hperm. split_and!; [done|done|done|].
  rewrite Hamount. apply BN10_toString10.
Qed.

Lemma reported_amounts_parse_back_witness :
  getApprovals Sample.O None 100 Sample.fourLogs Sample.allowances
    = Returned Sample.threeApprovals
  /\ exists l n,
       l ∈ Sample.fourLogs
       /\ toBN (Log.data l) = Returned n
       /\ "50" = toString10 n
       /\ BN10 "50" = Returned n.
Proof.
  assert (H : getApprovals Sample.O None 100 Sample.fourLogs Sample.allowances
              = Returned Sample.threeApprovals) by (vm_compute; reflexivity).
  split; [exact H|].
  apply (reported_amounts_parse_back _ _ _ _ _ _ H
           (Approval.mk Sample.C Sample.S1 "50" None (Some true))).
  by left.
Defined.

(** ** Scoring *)

Lemma addApprovalRiskScore_key_not_Returned r blockNumber reputations
  (key : string) currentBlock answers out :
  key <> "" ->
  addApprovalRiskScore r blockNumber reputations (Some key) currentBlock answers
  <> Returned out.
Proof.
  intros Hkey Hout. unfold addApprovalRiskScore in Hout. cbv zeta in Hout.
  apply bind_Returned in Hout as (balances & _ & H).
  apply bind_Returned in H as (decimalsMap & _ & H).
  apply bind_Returned in H as (exchangeRates & _ & H).
  apply bind_Returned in H as (verified & Hv & _).
  unfold verifyContracts in Hv. rewrite decide_False in Hv by done.
  by destruct (newSet _).
Qed.

(** With a non-empty Etherscan API key [addApprovalRiskScore] never returns a
    report: the verification block refers to names that are not in scope. *)
Theorem etherscan_key_never_scores r blockNumber reputations (key : string)
  currentBlock answers out :
  key <> "" ->
  addApprovalRiskScore r blockNumber reputations (Some key) currentBlock answers
  <> Returned out.
Proof. apply addApprovalRiskScore_key_not_Returned. Qed.

Lemma etherscan_key_never_scores_witness :
  "KEY" <> ""
  /\ addApprovalRiskScore Sample.one (Some 100%N) None (Some "KEY") 100 Sample.allFine
     <> Returned Sample.noBalanceReport.
Proof.
  assert (H : "KEY" <> "") by discriminate.
  split; [exact H|].
  exact (etherscan_key_never_scores Sample.one (Some 100%N) None "KEY" 100
           Sample.allFine Sample.noBalanceReport H).
Defined.

Lemma mapM_Returned_fmap {A B} (f : A -> outcome B) (g : B -> A) (l : list A) ys :
  (forall x y, f x = Returned y -> g y = x) ->
  mapM f l = Returned ys -> g <$> ys = l.
Proof.
  intros Hg Hys. apply mapM_Returned_Forall2 in Hys.
  induction Hys as [|x y l ys Hxy _ IH]; [done|].
  by rewrite fmap_cons, (Hg _ _ Hxy), IH.
Qed.

Lemma score_approval reputations verified exchangeRates balances a s :
  score reputations verified exchangeRates balances a = Returned s ->
  Scored.approval s = a /\ Scored.balance s = balances !! Approval.contract a.
Proof.
  unfold score. intros (risk & _ & Hs)%bind_Returned. simpl in Hs.
  by injection Hs as <-.
Qed.

(** Scoring keeps the owner and the approvals as they are, in order: it only
    adds the risk and the balance to each. *)
Theorem scoring_keeps_approvals r blockNumber reputations etherscanApiKey
  currentBlock answers out :
  addApprovalRiskScore r blockNumber reputations etherscanApiKey currentBlock answers
    = Returned out ->
  scored_owner out = owner r
  /\ Scored.approval <$> scored_approvals out = approvals r.
Proof.
  intros (balances & decimalsMap & exchangeRates & scored & _ & _ & _ & Hs & ->)
    %addApprovalRiskScore_Returned.
  split; [done|]. simpl.
  apply (mapM_Returned_fmap _ _ _ _ (fun x y H => proj1 (score_approval _ _ _ _ x y H)) Hs).
Qed.

Lemma scoring_keeps_approvals_witness :
  addApprovalRiskScore Sample.one (Some 100%N) None None 100 Sample.noBalance
    = Returned Sample.noBalanceReport
  /\ scored_owner Sample.noBalanceReport = owner Sample.one
  /\ Scored.approval <$> scored_approvals Sample.noBalanceReport
     = approvals Sample.one.
Proof.
  assert (H : addApprovalRiskScore Sample.one (Some 100%N) None None 100
                Sample.noBalance = Returned Sample.noBalanceReport)
    by (vm_compute; reflexivity).
  split; [exact H|].
  exact (scoring_keeps_approvals _ _ _ _ _ _ _ H).
Defined.

(** When the balance batch is answered once per approval, every scored
    approval carries a balance: the 0 of a failed call or the uint256 of a
    successful one. *)
Theorem every_scored_approval_has_balance r blockNumber reputations
  etherscanApiKey currentBlock answers out :
  addApprovalRiskScore r blockNumber reputations etherscanApiKey currentBlock answers
    = Returned out ->
  (balanceAnswers answers).*1 ≡ₚ approvals r ->
  forall s, s ∈ scored_approvals out -> is_Some (Scored.balance s).
Proof.
  intros (balances & decimalsMap & exchangeRates & scored & Hb & _ & _ & Hs & ->)
    %addApprovalRiskScore_Returned Hperm s Hin.
  simpl in Hin.
  destruct (mapM_Returned_inv _ _ _ _ Hs Hin) as (a & Ha & Hscore).
  apply score_approval in Hscore as [<- ->].
  rewrite (handled_balance_stored _ _ _ _ _ _ Hb).
  rewrite <- Hperm in Ha. apply list_elem_of_fmap in Ha as ([a' answer] & -> & Ha).
  simpl. clear -Ha.
  induction (balanceAnswers answers) as [|[i r0] schedule IH] using rev_ind.
  - by apply elem_of_nil in Ha.
  - rewrite foldl_app. simpl.
    destruct (decide (Approval.contract i = Approval.contract a')) as [->|Hne].
    + rewrite lookup_insert_eq. by eexists.
    + rewrite lookup_insert_ne by done. apply IH.
      apply elem_of_app in Ha as [Ha|Ha]; [done|].
      apply list_elem_of_singleton in Ha. injection Ha as -> ->. done.
Qed.

Lemma every_scored_approval_has_balance_witness :
  addApprovalRiskScore Sample.one (Some 100%N) None None 100 Sample.noBalance
    = Returned Sample.noBalanceReport
  /\ (balanceAnswers Sample.noBalance).*1 ≡ₚ approvals Sample.one
  /\ forall s, s ∈ scored_approvals Sample.noBalanceReport ->
       is_Some (Scored.balance s).
Proof.
  assert (H1 : addApprovalRiskScore Sample.one (Some 100%N) None None 100
                 Sample.noBalance = Returned Sample.noBalanceReport)
    by (vm_compute; reflexivity).
  assert (H2 : (balanceAnswers Sample.noBalance).*1 ≡ₚ approvals Sample.one)
    by reflexivity.
  split_and!; [exact H1|exact H2|].
  exact (every_scored_approval_has_balance _ _ _ _ _ _ _ H1 H2).
Defined.

(** The risk of every scored approval, spelled out. *)
Lemma scored_risk_formula r blockNumber reputations etherscanApiKey currentBlock
  answers out :
  addApprovalRiskScore r blockNumber reputations etherscanApiKey currentBlock answers
    = Returned out ->
  let pinned := pinnedBlock blockNumber currentBlock in
  let tokenAddresses := newSet (Approval.contract <$> approvals r) in
  exists balances decimalsMap exchangeRates,
    makeBatchRequestPromise (balanceRequest (owner r) pinned) handleBalance
      (approvals r) ∅ (balanceAnswers answers) = Returned balances
    /\ makeBatchRequestPromise (decimalsRequest pinned) handleDecimals
         tokenAddresses ∅ (decimalsAnswers answers) = Returned decimalsMap
    /\ makeBatchRequestPromise (exchangeRateRequest pinned decimalsMap) handleRates
         tokenAddresses ∅ (rateAnswers answers) = Returned exchangeRates
    /\ forall s, s ∈ scored_approvals out ->
         let a := Scored.approval s in
         exists approved atRisk,
           a ∈ approvals r
           /\ BN10 (Approval.amount a) = Returned approved
           /\ atRisk = BN_min approved (balanceOrZero balances (Approval.contract a))
           /\ amountAtRisk balances a = Returned atRisk
           /\ Scored.balance s = balances !! Approval.contract a
           /\ Scored.risk s
              = mul (mul (default NaN (exchangeRates !! Approval.contract a))
                         (Number atRisk))
                    (likelihood (default ∅ reputations) ∅
                       (Approval.contract a) (Approval.spender a)).
Proof.
  intros (balances & decimalsMap & exchangeRates & scored & Hb & Hd & Hr & Hs & ->)
    %addApprovalRiskScore_Returned pinned tokenAddresses.
  exists balances, decimalsMap, exchangeRates. split_and!; [done..|].
  intros s Hin a. simpl in Hin.
  destruct (mapM_Returned_inv _ _ _ _ Hs Hin) as (a' & Ha' & Hscore).
  unfold score in Hscore.
  apply bind_Returned in Hscore as (risk & Hrisk & Hscore).
  simpl in Hscore. injection Hscore as <-. subst a. simpl.
  unfold getRiskScore in Hrisk.
  apply bind_Returned in Hrisk as (atRisk & HatRisk & Hrisk).
  simpl in Hrisk. injection Hrisk as <-.
  pose proof HatRisk as HatRisk'. unfold amountAtRisk in HatRisk'.
  apply bind_Returned in HatRisk' as (approved & Happroved & HatRisk').
  simpl in HatRisk'. injection HatRisk' as <-.
  by exists approved, (BN_min approved (balanceOrZero balances (Approval.contract a'))).
Qed.



(** When the quote call of a contract fails, its exchange rate is 0, and the
    risk of each of its approvals is (0 * amount at risk) * likelihood: zero
    whenever the amount at risk converts to a finite number and the
    likelihood is finite. *)
Theorem failed_quote_scores_zero r blockNumber reputations etherscanApiKey
  currentBlock answers out contract (e : string) :
  addApprovalRiskScore r blockNumber reputations etherscanApiKey currentBlock answers
    = Returned out ->
  (rateAnswers answers).*1 ≡ₚ newSet (Approval.contract <$> approvals r) ->
  (contract, Failure e) ∈ rateAnswers answers ->
  forall s, s ∈ scored_approvals out ->
    Approval.contract (Scored.approval s) = contract ->
    let a := Scored.approval s in
    let odds := likelihood (default ∅ reputations) ∅ contract (Approval.spender a) in
    exists approved balance,
      BN10 (Approval.amount a) = Returned approved
      /\ Scored.risk s
         = mul (mul (S754_zero false) (Number (N.min approved balance))) odds
      /\ (isFinite (Number (N.min approved balance)) = true ->
          isFinite odds = true -> isZero (Scored.risk s) = true).
Proof.
  intros Hout Hperm Hfail s Hin Hcontract a odds. subst a odds.
  destruct (scored_risk_formula _ _ _ _ _ _ _ Hout)
    as (balances & decimalsMap & exchangeRates & _ & _ & Hr & Hscored).
  destruct (Hscored s Hin)
    as (approved & atRisk & Ha & Happroved & -> & _ & _ & Hrisk).
  cbv zeta in Ha, Happroved, Hrisk.
  assert (Hrate : exchangeRates !! contract = Some (S754_zero false)).
  { apply makeBatchRequestPromise_Returned in Hr as [-> _].
    apply (stored_unique id
             (fun r0 : response (list N) =>
                div (nth 1 (match r0 with
                            | Failure _ => [Number 1; Number 0]
                            | Success rates => Number <$> rates
                            end) NaN)
                    (nth 0 (match r0 with
                            | Failure _ => [Number 1; Number 0]
                            | Success rates => Number <$> rates
                            end) NaN)) _ ∅ contract (Failure e)); [|done].
    rewrite list_fmap_id, Hperm. apply newSet_NoDup. }
  rewrite Hcontract, BN_min_spec in Hrisk.
  match type of Hrisk with
  | context [default NaN ?x] =>
      replace x with (Some (S754_zero false)) in Hrisk by (symmetry; exact Hrate)
  end.
  simpl in Hrisk.
  exists approved, (balanceOrZero balances contract).
  split_and!; [done|done|].
  intros Hfinite Hodds. rewrite Hrisk.
  apply mul_zero_finite_l; [|done]. by destruct (Number _).
Qed.

Lemma failed_quote_scores_zero_witness :
  addApprovalRiskScore Sample.one (Some 100%N) None None 100 Sample.noQuote
    = Returned {| scored_owner := Sample.O;
                  scored_approvals :=
                    [Scored.mk Sample.a1 (S754_zero false) (Some (Big 5))] |}
  /\ (rateAnswers Sample.noQuote).*1
       ≡ₚ newSet (Approval.contract <$> approvals Sample.one)
  /\ (Sample.C, Failure "execution reverted") ∈ rateAnswers Sample.noQuote
  /\ exists approved balance,
       BN10 (Approval.amount Sample.a1) = Returned approved
       /\ S754_zero false
          = mul (mul (S754_zero false) (Number (N.min approved balance)))
                (likelihood ∅ ∅ Sample.C (Approval.spender Sample.a1)).
Proof.
  assert (H1 : addApprovalRiskScore Sample.one (Some 100%N) None None 100 Sample.noQuote
    = Returned {| scored_owner := Sample.O;
                  scored_approvals :=
                    [Scored.mk Sample.a1 (S754_zero false) (Some (Big 5))] |})
    by (vm_compute; reflexivity).
  assert (H2 : (rateAnswers Sample.noQuote).*1
                 ≡ₚ newSet (Approval.contract <$> approvals Sample.one))
    by (vm_compute; reflexivity).
  assert (H3 : (Sample.C, Failure "execution reverted") ∈ rateAnswers Sample.noQuote)
    by (by left).
  split_and!; [exact H1|exact H2|exact H3|].
  destruct (failed_quote_scores_zero _ _ _ _ _ _ _ Sample.C _ H1 H2 H3
              (Scored.mk Sample.a1 (S754_zero false) (Some (Big 5))))
    as (approved & balance & Happroved & Hrisk & _); [by left|reflexivity|].
  by exists approved, balance.
Defined.

(** ** The entry point *)

(** Run with the risk option and a non-empty Etherscan API key, [main] never
    prints a report. *)
Theorem main_with_key_never_prints (args : argv) (key : string)
  blockNumber laterBlock pastLogs allowances answers (p : printed) :
  argv_calculateRisk args = true ->
  argv_etherscanApiKey args = Some key ->
  key <> "" ->
  main args blockNumber laterBlock pastLogs allowances answers <> Returned p.
Proof.
  intros Hrisk Hkey Hne Hmain. unfold main in Hmain.
  apply bind_Returned in Hmain as (result & _ & Hmain).
  rewrite Hrisk, Hkey in Hmain.
  apply bind_Returned in Hmain as (scored & Hscored & _).
  by apply addApprovalRiskScore_key_not_Returned in Hscored.
Qed.

Lemma main_with_key_never_prints_witness :
  argv_calculateRisk Sample.riskWithKey = true
  /\ argv_etherscanApiKey Sample.riskWithKey = Some "KEY"
  /\ "KEY" <> ""
  /\ main Sample.riskWithKey 100 100 Sample.fourLogs Sample.allowances Sample.allFine
     <> Returned (PlainReport Sample.threeApprovals).
Proof.
  assert (H1 : argv_calculateRisk Sample.riskWithKey = true) by reflexivity.
  assert (H2 : argv_etherscanApiKey Sample.riskWithKey = Some "KEY") by reflexivity.
  assert (H3 : "KEY" <> "") by discriminate.
  split_and!; [exact H1|exact H2|exact H3|].
  exact (main_with_key_never_prints Sample.riskWithKey "KEY" 100 100 Sample.fourLogs
           Sample.allowances Sample.allFine _ H1 H2 H3).
Defined.



(** ** The shape of un-padded addresses *)

Lemma substring_length_le (n m : nat) (s : string) :
  (n + m <= String.length s)%nat -> String.length (substring n m s) = m.
Proof.
  revert n m. induction s as [|c s IH]; intros [|n] [|m]; simpl; try lia.
  - intros H. f_equal. apply (IH 0%nat). lia.
  - intros H. apply (IH n 0%nat). lia.
  - intros H. apply (IH n (S m)). lia.
Qed.

Lemma substring_whole (m : nat) (s : string) :
  (String.length s <= m)%nat -> substring 0 m s = s.
Proof.
  revert m. induction s as [|c s IH]; intros [|m]; simpl; try lia; try done.
  intros H. f_equal. apply IH. lia.
Qed.

(** [unpadAddress] returns only on text that starts with "0x" and 24 zeros.
    On such text of at least 40 characters the result has the 42 characters
    of an address; on shorter text [slice(-40)] keeps the whole text, "0x"
    included, so the result is the text behind a second "0x". *)
Theorem unpadAddress_shape (topic address : string) :
  unpadAddress topic = Returned address ->
  String.prefix "0x000000000000000000000000" topic = true
  /\ ((40 <= String.length topic)%nat -> String.length address = 42%nat)
  /\ ((String.length topic <= 40)%nat -> address = "0x" +:+ topic).
Proof.
  unfold unpadAddress, slice_last.
  destruct (String.prefix _ topic) eqn:Hprefix; simpl; [|done].
  intros [= <-]. split_and!; [done| |].
  - intros Hlen. rewrite !append_cons, append_nil. simpl. do 2 f_equal.
    apply substring_length_le. lia.
  - intros Hlen. do 2 f_equal.
    replace (String.length topic - 40)%nat with 0%nat by lia.
    by apply substring_whole.
Qed.

Lemma unpadAddress_shape_witness :
  unpadAddress Sample.S1_topic = Returned Sample.S1
  /\ String.prefix "0x000000000000000000000000" Sample.S1_topic = true
  /\ String.length Sample.S1 = 42%nat.
Proof.
  assert (H : unpadAddress Sample.S1_topic = Returned Sample.S1)
    by (vm_compute; reflexivity).
  split; [exact H|].
  destruct (unpadAddress_shape _ _ H) as (Hp & Hlong & _).
  split; [exact Hp|]. apply Hlong. vm_compute. lia.
Defined.

(** ** Approvals of the zero address *)

(** An approval of the zero address that is on record is part of the report,
    with its amount and with neither an allowance nor an error flag, since
    no allowance call is made for it. *)
Theorem null_spender_reported_bare address blockNumber currentBlock pastLogs
  allowances (m : approvalMap) r (contractAddress : string) (e : Entry.t) :
  reconstruct address pastLogs = Returned m ->
  getApprovals address blockNumber currentBlock pastLogs allowances = Returned r ->
  allowances.*1 ≡ₚ validApprovals m ->
  dotFree contractAddress = true ->
  m !! approvalKey contractAddress nullAddress = Some e ->
  Approval.mk contractAddress nullAddress (Entry.amount e) None None ∈ approvals r.
Proof.
  intros Hm (m0 & Hm0 & ->)%getApprovals_Returned Hperm Hdot He.
  rewrite Hm in Hm0. injection Hm0 as <-. simpl.
  apply list_elem_of_fmap. exists (approvalKey contractAddress nullAddress, e).
  split.
  - simpl. rewrite approvalOf_approvalKey by done.
    by rewrite (reconstruct_fresh _ _ _ _ _ Hm He).
  - apply elem_of_map_to_list. rewrite handled_allowance_notin; [done|].
    rewrite Hperm, elem_of_validApprovals.
    rewrite (split_approvalKey _ _ Hdot), split_dotFree by done. simpl.
    by intros [? _].
Qed.

Lemma null_spender_reported_bare_witness :
  reconstruct Sample.O Sample.fourLogs = Returned Sample.threeEntries
  /\ getApprovals Sample.O None 100 Sample.fourLogs Sample.allowances
     = Returned Sample.threeApprovals
  /\ Sample.allowances.*1 ≡ₚ validApprovals Sample.threeEntries
  /\ dotFree Sample.C = true
  /\ Sample.threeEntries !! approvalKey Sample.C nullAddress
     = Some (Entry.mk "1" None None)
  /\ Approval.mk Sample.C nullAddress "1" None None ∈ approvals Sample.threeApprovals.
Proof.
  assert (H1 : reconstruct Sample.O Sample.fourLogs = Returned Sample.threeEntries)
    by (vm_compute; reflexivity).
  assert (H2 : getApprovals Sample.O None 100 Sample.fourLogs Sample.allowances
               = Returned Sample.threeApprovals) by (vm_compute; reflexivity).
  assert (H3 : Sample.allowances.*1 ≡ₚ validApprovals Sample.threeEntries)
    by (vm_compute; reflexivity).
  assert (H4 : dotFree Sample.C = true) by reflexivity.
  assert (H5 : Sample.threeEntries !! approvalKey Sample.C nullAddress
               = Some (Entry.mk "1" None None)) by (vm_compute; reflexivity).
  split_and!; [exact H1|exact H2|exact H3|exact H4|exact H5|].
  exact (null_spender_reported_bare _ _ _ _ _ _ _ _ _ H1 H2 H3 H4 H5).
Defined.

(** ** Balances share a slot per contract *)

(** After the balance pass the balance on record for a contract is what the
    last callback to run for that contract stored: 0 if that call failed, its
    result otherwise, whatever earlier callbacks for the contract stored. *)
Theorem balance_last_answer_wins (owner : string) (blockNumber : N)
  (items : list approval) (earlier later : list (approval * response N))
  (a : approval) (answer : response N) (balances : gmap string balanceValue) :
  makeBatchRequestPromise (balanceRequest owner blockNumber) handleBalance items ∅
    (earlier ++ (a, answer) :: later) = Returned balances ->
  Forall (fun ir => Approval.contract ir.1 <> Approval.contract a) later ->
  balances !! Approval.contract a
  = Some match answer with Failure _ => Zero | Success b => Big b end.
Proof.
  intros Hb Hlater. rewrite (handled_balance_stored _ _ _ _ _ _ Hb).
  rewrite foldl_app. simpl.
  rewrite (stored_untouched Approval.contract
             (fun r0 : response N => match r0 with Failure _ => Zero | Success b => Big b end)).
  - by rewrite lookup_insert_eq.
  - intros i r0 Hin. rewrite Forall_forall in Hlater. apply (Hlater _ Hin).
Qed.

Lemma balance_last_answer_wins_witness :
  makeBatchRequestPromise (balanceRequest Sample.O 100) handleBalance
    (approvals Sample.two) ∅
    ([(Sample.a2, Success 7%N)] ++ (Sample.a1, Failure "timeout") :: [])
    = Returned {[ Sample.C := Zero ]}
  /\ Forall (fun ir : approval * response N =>
               Approval.contract ir.1 <> Approval.contract Sample.a1) []
  /\ ({[ Sample.C := Zero ]} : gmap string balanceValue)
       !! Approval.contract Sample.a1 = Some Zero.
Proof.
  assert (H1 : makeBatchRequestPromise (balanceRequest Sample.O 100) handleBalance
    (approvals Sample.two) ∅
    ([(Sample.a2, Success 7%N)] ++ (Sample.a1, Failure "timeout") :: [])
    = Returned {[ Sample.C := Zero ]}) by (vm_compute; reflexivity).
  assert (H2 : Forall (fun ir : approval * response N =>
               Approval.contract ir.1 <> Approval.contract Sample.a1) [])
    by constructor.
  split_and!; [exact H1|exact H2|].
  exact (balance_last_answer_wins _ _ _ _ _ _ _ _ H1 H2).
Defined.

(** ** Scoring nothing *)

(** Scoring a report without approvals never returns: its first batch is
    empty. *)
Theorem scoring_empty_report_pending (owner : string) blockNumber reputations
  etherscanApiKey currentBlock answers :
  addApprovalRiskScore {| owner := owner; approvals := [] |} blockNumber
    reputations etherscanApiKey currentBlock answers = Pending.
Proof.
  unfold addApprovalRiskScore. cbv zeta. cbn [approvals].
  by rewrite makeBatchRequestPromise_nil.
Qed.
